(** * Chess-puzzle feed: progression state machine, feed controller,
      reactions and the onboarding gate.

    Shallow embedding of [app/(tabs)/puzzles.tsx], [app/index.tsx],
    [lib/storage] and [lib/config.ts].  React state ([useState]) is a
    value threaded through the updaters passed to [setBoards]; refs
    ([useRef]) are fields of the feed state; [setTimeout] calls made by
    an updater are collected in the list it returns next to the new
    state.  The [chess.js] object of a board is an external handle: the
    updaters below copy it and never look inside. *)

From Stdlib Require Import Ascii.
From stdpp Require Import base tactics option list strings pretty gmap.

Open Scope string_scope.
Open Scope nat_scope.
Open Scope list_scope.

(** ** Data model *)

(** [Square] is chess.js's union of the 64 string literals ['a1'..'h8']. *)
Definition Square := string.

Inductive Side := side_w | side_b.

Inductive PromotionPiece := promo_q | promo_r | promo_b | promo_n.

Module LastMove.
Record t := mk { from : Square; to : Square }.
End LastMove.

Module MoveSpec.
Record t := mk { from : Square; to : Square; promotion : option PromotionPiece }.
End MoveSpec.

(** Handle on a [Chess] object; [loaded] is the FEN handed to [chess.load]. *)
Record Chess := { loaded : string }.

Record BoardModel := {
  id : string;
  chess : Chess;
  liked : bool;
  starred : bool;
  version : nat;
  tactic : string;
  sideToPlay : Side;
  lastMove : option LastMove.t;
  solution : list MoveSpec.t;
  stepIndex : nat;
  solved : bool;
  correctSquares : list Square;
  lastMoveCorrect : option bool
}.

Module Preset.
Record t := mk {
  fen : string;
  tactic : string;
  sideToPlay : Side;
  solution : list MoveSpec.t
}.
End Preset.

Definition ms (f t : Square) : MoveSpec.t := MoveSpec.mk f t None.

Definition PRESET_PUZZLES : list Preset.t := [
  Preset.mk "rnbqkbnr/pppppppp/8/8/8/8/PPPPPPPP/RNBQKBNR w KQkq - 0 1"
    "Double Attack" side_w [ms "e2" "e4"];
  Preset.mk "rnbqkbnr/pppppppp/8/8/8/8/PPPPPPPP/RNBQKBNR b KQkq - 0 1"
    "Pin" side_b [ms "e7" "e5"];
  Preset.mk "r1bqkbnr/pppp1ppp/2n5/4p3/3P4/5N2/PPP1PPPP/RNBQKB1R w KQkq - 2 3"
    "Fork" side_w [ms "d4" "e5"; ms "f3" "d4"];
  Preset.mk "rnbqk2r/ppp2ppp/3b1n2/3pp3/3P4/2P1PN2/PP1N1PPP/R1BQKB1R w KQkq - 0 6"
    "Skewer" side_w [ms "d1" "b3"];
  Preset.mk "r1bqkbnr/pppp1ppp/2n5/4p3/3P4/2N5/PPP1PPPP/R1BQKBNR b KQkq - 1 3"
    "Discovered Attack" side_b [ms "c6" "d4"];
  Preset.mk "rnbq1rk1/ppp2ppp/3b1n2/3pp3/3P4/2P1PN2/PP1N1PPP/R1BQ1RK1 w - - 2 8"
    "Back Rank Mate" side_w [ms "d1" "d8"];
  Preset.mk "r1bqk2r/ppp2ppp/2nb1n2/3pp3/3P4/2P1PN2/PP1N1PPP/R1BQKB1R b KQkq - 2 6"
    "Smothered Mate" side_b [ms "e8" "g8"; ms "g8" "h8"];
  Preset.mk "r1bqk2r/ppp2ppp/2nb1n2/3pp3/3P4/2P1PN2/PP1N1PPP/R1BQKB1R w KQkq - 3 7"
    "Queen Sacrifice" side_w [ms "d1" "h5"];
  Preset.mk "rnbqk2r/ppp2ppp/3b1n2/3pp3/3P4/2P1PN2/PP1N1PPP/R1BQKB1R w KQkq - 0 6"
    "Deflection" side_w [ms "c3" "d4"];
  Preset.mk "r1bqkbnr/pppp1ppp/2n5/4p3/3P4/2N5/PPP1PPPP/R1BQKBNR w KQkq - 2 3"
    "Overloading" side_w [ms "c3" "d5"]
].

Definition createBoardFromPreset (p : Preset.t) (bid : string) : BoardModel :=
  {| id := bid; chess := {| loaded := Preset.fen p |};
     liked := false; starred := false; version := 0;
     tactic := Preset.tactic p; sideToPlay := Preset.sideToPlay p;
     lastMove := None; solution := Preset.solution p;
     stepIndex := 0; solved := false; correctSquares := [];
     lastMoveCorrect := None |}.

(** ** Playing a move ([onMovePlayed]) *)

(** A pending [setTimeout(() => listRef.current?.scrollToIndex({index}), delay)]. *)
Record ScrollTimer := { delay : nat; index : nat }.

(** [Math.min(i + 1, prev.length - 1)]; the callback only runs on an
    element of [prev], so [prev.length - 1] is never negative. *)
Definition nextIdx (prev : list BoardModel) (i : nat) : nat :=
  Nat.min (i + 1) (length prev - 1).

(** [expected ? (expected.from === last.from && expected.to === last.to) : true]
    with [expected = b.solution[b.stepIndex ?? 0]]. *)
Definition playedMatches (b : BoardModel) (last : LastMove.t) : bool :=
  match solution b !! stepIndex b with
  | Some expected =>
      bool_decide (MoveSpec.from expected = LastMove.from last)
      && bool_decide (MoveSpec.to expected = LastMove.to last)
  | None => true
  end.

(** [nextStep >= (b.solution?.length ?? 0) && (b.solution?.length ?? 0) > 0]
    with [nextStep = step + 1]. *)
Definition solvedNow (b : BoardModel) : bool :=
  (length (solution b) <=? stepIndex b + 1) && (0 <? length (solution b)).

(** The callback that [onMovePlayed] maps over [prev]: the new element and
    the timers the call sets. *)
Definition movePlayedAt (bid : string) (last : LastMove.t)
    (prev : list BoardModel) (i : nat) (b : BoardModel)
    : BoardModel * list ScrollTimer :=
  if bool_decide (id b ≠ bid) then (b, [])
  else if negb (playedMatches b last) then
    ({| id := id b; chess := chess b; liked := liked b; starred := starred b;
        version := version b + 1;
        tactic := tactic b; sideToPlay := sideToPlay b;
        lastMove := Some last; solution := solution b;
        stepIndex := stepIndex b; solved := solved b;
        correctSquares := []; lastMoveCorrect := Some false |},
     [ {| delay := 350; index := nextIdx prev i |} ])
  else
    ({| id := id b; chess := chess b; liked := liked b; starred := starred b;
        version := version b + 1;
        tactic := tactic b; sideToPlay := sideToPlay b;
        lastMove := Some last; solution := solution b;
        stepIndex := stepIndex b + 1;
        solved := if solvedNow b then true else solved b;
        correctSquares := [LastMove.to last]; lastMoveCorrect := Some true |},
     if solvedNow b then [ {| delay := 550; index := nextIdx prev i |} ] else []).

(** [setBoards(prev => prev.map((b, i) => ...))]: the new feed and, in
    the order the callback ran, the timers it set. *)
Definition onMovePlayed (bid : string) (last : LastMove.t)
    (prev : list BoardModel) : list BoardModel * list ScrollTimer :=
  let rs := imap (movePlayedAt bid last prev) prev in
  (fst <$> rs, concat (snd <$> rs)).

(** ** Reactions ([LikeStarActions]) *)

Definition withLiked (v : bool) (b : BoardModel) : BoardModel :=
  {| id := id b; chess := chess b; liked := v; starred := starred b;
     version := version b; tactic := tactic b; sideToPlay := sideToPlay b;
     lastMove := lastMove b; solution := solution b;
     stepIndex := stepIndex b; solved := solved b;
     correctSquares := correctSquares b;
     lastMoveCorrect := lastMoveCorrect b |}.

Definition withStarred (v : bool) (b : BoardModel) : BoardModel :=
  {| id := id b; chess := chess b; liked := liked b; starred := v;
     version := version b; tactic := tactic b; sideToPlay := sideToPlay b;
     lastMove := lastMove b; solution := solution b;
     stepIndex := stepIndex b; solved := solved b;
     correctSquares := correctSquares b;
     lastMoveCorrect := lastMoveCorrect b |}.

(** [prev.map(b => b.id === item.id ? { ...b, liked: !b.liked } : b)] *)
Definition toggleLike (bid : string) (prev : list BoardModel) : list BoardModel :=
  (λ b, if bool_decide (id b = bid) then withLiked (negb (liked b)) b else b) <$> prev.

(** [prev.map(b => b.id === item.id ? { ...b, starred: !b.starred } : b)] *)
Definition toggleStar (bid : string) (prev : list BoardModel) : list BoardModel :=
  (λ b, if bool_decide (id b = bid) then withStarred (negb (starred b)) b else b) <$> prev.

(** [onDoubleTap] and [onTapLike] address the board by feed position:
    [prev.map((b, i) => i === currentIndex ? { ...b, liked: !b.liked } : b)].
    Their guard [if (!currentBoard) return] only skips calls whose map
    would change nothing. *)
Definition onTapLike (currentIndex : nat) (prev : list BoardModel) : list BoardModel :=
  imap (λ i b, if bool_decide (i = currentIndex) then withLiked (negb (liked b)) b else b) prev.

Definition onTapStar (currentIndex : nat) (prev : list BoardModel) : list BoardModel :=
  imap (λ i b, if bool_decide (i = currentIndex) then withStarred (negb (starred b)) b else b) prev.

(** ** Feed controller ([useBoards] and the handlers of [Puzzles]) *)

#[global] Instance Preset_inhabited : Inhabited Preset.t :=
  populate (Preset.mk "" "" side_w []).

(** [PRESET_PUZZLES[n % PRESET_PUZZLES.length]] *)
Definition presetAt (n : nat) : Preset.t :=
  PRESET_PUZZLES !!! (n `mod` length PRESET_PUZZLES).

(** The template literal [`b-${n}`]. *)
Definition boardId (n : nat) : string := "b-" +:+ pretty n.

(** State of the [Puzzles] screen: the [boards] state, the two refs of
    [useBoards], the 5 ms append timers not yet fired and the scroll
    timers set so far (oldest first). *)
Record Feed := {
  boards : list BoardModel;
  loadingRef : bool;
  cursorRef : nat;
  appendTimers : nat;
  scrollTimers : list ScrollTimer
}.

(** [Array.from({ length: initial }, (_, i) => createBoardFromPreset(...))] *)
Definition useBoards (initial : nat) : Feed :=
  {| boards := (λ i, createBoardFromPreset (presetAt i) (boardId i)) <$> seq 0 initial;
     loadingRef := false; cursorRef := initial;
     appendTimers := 0; scrollTimers := [] |}.

(** [addBoard()]: returns at once while an append is in flight, else
    raises the flag and sets the 5 ms timer. *)
Definition addBoard (s : Feed) : Feed :=
  if loadingRef s then s
  else {| boards := boards s; loadingRef := true; cursorRef := cursorRef s;
          appendTimers := appendTimers s + 1; scrollTimers := scrollTimers s |}.

(** The body of the 5 ms timer: the [setBoards] updater, then
    [loadingRef.current = false].  Without a pending timer nothing runs. *)
Definition appendTimerFired (s : Feed) : Feed :=
  match appendTimers s with
  | 0 => s
  | S pending =>
      let next := createBoardFromPreset (presetAt (cursorRef s))
                    (boardId (length (boards s))) in
      {| boards := boards s ++ [next]; loadingRef := false;
         cursorRef := cursorRef s + 1;
         appendTimers := pending; scrollTimers := scrollTimers s |}
  end.

Definition setBoards (f : list BoardModel → list BoardModel) (s : Feed) : Feed :=
  {| boards := f (boards s); loadingRef := loadingRef s; cursorRef := cursorRef s;
     appendTimers := appendTimers s; scrollTimers := scrollTimers s |}.

Inductive Event :=
  | EvAddBoard
  | EvAppendTimer
  | EvMovePlayed (bid : string) (last : LastMove.t)
  | EvToggleLike (bid : string)
  | EvToggleStar (bid : string)
  | EvTapLike (currentIndex : nat)
  | EvTapStar (currentIndex : nat).

Definition step (e : Event) (s : Feed) : Feed :=
  match e with
  | EvAddBoard => addBoard s
  | EvAppendTimer => appendTimerFired s
  | EvMovePlayed bid last =>
      let r := onMovePlayed bid last (boards s) in
      {| boards := r.1; loadingRef := loadingRef s; cursorRef := cursorRef s;
         appendTimers := appendTimers s;
         scrollTimers := scrollTimers s ++ r.2 |}
  | EvToggleLike bid => setBoards (toggleLike bid) s
  | EvToggleStar bid => setBoards (toggleStar bid) s
  | EvTapLike i => setBoards (onTapLike i) s
  | EvTapStar i => setBoards (onTapStar i) s
  end.

Definition run (evs : list Event) (s : Feed) : Feed :=
  foldl (λ s e, step e s) s evs.

(** A single board seen through [onMovePlayed]: the new element when the
    move is addressed to [b] itself. *)
Definition play (last : LastMove.t) (b : BoardModel) : BoardModel :=
  (movePlayedAt (id b) last [b] 0 b).1.

Definition playAll (moves : list LastMove.t) (b : BoardModel) : BoardModel :=
  foldl (λ b m, play m b) b moves.

(** The move a user plays to follow solution step [e]. *)
Definition asPlayed (e : MoveSpec.t) : LastMove.t :=
  LastMove.mk (MoveSpec.from e) (MoveSpec.to e).

(** ** Onboarding gate ([Splash], [lib/storage], [completeAndEnter]) *)

(** How a promise has ended when its result is looked at. *)
Inductive Settled (A : Type) :=
  | Resolved (a : A)
  | Rejected
  | Pending.
Arguments Resolved {A} a.
Arguments Rejected {A}.
Arguments Pending {A}.

(** The key-value store behind [storage]: the in-memory fallback is the
    map itself and never fails; AsyncStorage may reject a call, which
    [available = false] stands for.  [setLog] records the [setItem] calls
    made, oldest first. *)
Record Storage := {
  mem : gmap string string;
  available : bool;
  setLog : list (string * string)
}.

(** [k in mem ? mem[k] : null] *)
Definition getItem (k : string) (st : Storage) : Settled (option string) :=
  if available st then Resolved (mem st !! k) else Rejected.

(** [mem[k] = v] *)
Definition setItem (k v : string) (st : Storage) : Settled unit * Storage :=
  if available st
  then (Resolved (), {| mem := <[k := v]> (mem st); available := true;
                         setLog := setLog st ++ [(k, v)] |})
  else (Rejected, {| mem := mem st; available := false;
                     setLog := setLog st ++ [(k, v)] |}).

(** [lib/config.ts] *)
Definition FORCE_ONBOARDING_EVERY_TIME : bool := true.

(** [hasCompletedRef.current] when the splash animation ends: it starts
    [false], becomes [v === "1"] once the read has resolved, and stays
    [false] if the read was rejected or has not settled yet. *)
Definition hasCompleted (read : Settled (option string)) : bool :=
  match read with
  | Resolved (Some v) => bool_decide (v = "1")
  | Resolved None => false
  | Rejected => false
  | Pending => false
  end.

(** The path chosen in the animation's completion callback. *)
Definition splashPath (force completed : bool) : string :=
  if force then "/onboarding"
  else if completed then "/(tabs)/puzzles"
  else "/onboarding".

(** [Splash] under a given value [force] of the config switch: reads the
    flag, then routes; [inTime] says whether the read had settled when the
    animation ended.  Returns the route and the store, which the splash
    screen never writes. *)
Definition SplashWith (force inTime : bool) (st : Storage) : string * Storage :=
  let read := if inTime then getItem "onboardingCompleted" st else Pending in
  (splashPath force (hasCompleted read), st).

Definition Splash (inTime : bool) (st : Storage) : string * Storage :=
  SplashWith FORCE_ONBOARDING_EVERY_TIME inTime st.

(** [completeAndEnter]: [try { await storage.setItem(...) } catch {}],
    then [router.replace("/(tabs)/puzzles")]. *)
Definition completeAndEnter (st : Storage) : string * Storage :=
  let '(_, st') := setItem "onboardingCompleted" "1" st in
  ("/(tabs)/puzzles", st').

(** [playFeed bid moves prev]: the [boards] state after [onMovePlayed(bid, m)]
    has run for each [m] of [moves] in turn. *)
Definition playFeed (bid : string) (moves : list LastMove.t)
    (prev : list BoardModel) : list BoardModel :=
  foldl (λ p m, (onMovePlayed bid m p).1) prev moves.

(** ** Sample data: the feed as [Puzzles] first renders it, and moves *)

Definition feed2 : list BoardModel := boards (useBoards 2).

Definition board0 : BoardModel := createBoardFromPreset (presetAt 0) (boardId 0).

Definition e2e4 : LastMove.t := LastMove.mk "e2" "e4".
Definition d2d4 : LastMove.t := LastMove.mk "d2" "d4".
Definition e7e5 : LastMove.t := LastMove.mk "e7" "e5".

(** A puzzle whose solution is empty; the catalog has none. *)
Definition emptyPreset : Preset.t := Preset.mk "8/8/8/8/8/8/8/8 w - - 0 1" "None" side_w [].

Definition emptyBoard : BoardModel := createBoardFromPreset emptyPreset (boardId 0).

(** A feed holding one board with an empty solution. *)
Definition emptyFeed : Feed :=
  {| boards := [emptyBoard]; loadingRef := false; cursorRef := 1;
     appendTimers := 0; scrollTimers := [] |}.

(** The first feed once [e2e4] has been played on its first board. *)
Definition feed2_solved : list BoardModel := (onMovePlayed "b-0" e2e4 feed2).1.

(** A store in which the onboarding flag has been written. *)
Definition completedStore : Storage :=
  {| mem := {[ "onboardingCompleted" := "1" ]}; available := true; setLog := [] |}.

(** ** Specification vocabulary *)

(** What one handler call can make of a board it finds in the feed. *)
Inductive evolves (b : BoardModel) : BoardModel → Prop :=
  | evolves_same : evolves b b
  | evolves_play last : evolves b (play last b)
  | evolves_like : evolves b (withLiked (negb (liked b)) b)
  | evolves_star : evolves b (withStarred (negb (starred b)) b).

(** [b] carries the id [bid] and the position, labels and solution of the
    catalog entry [p]. *)
Definition builtFrom (p : Preset.t) (bid : string) (b : BoardModel) : Prop :=
  id b = bid
  ∧ chess b = {| loaded := Preset.fen p |}
  ∧ tactic b = Preset.tactic p
  ∧ sideToPlay b = Preset.sideToPlay p
  ∧ solution b = Preset.solution p.

(** The new board of an append: catalog entry [cursorRef % K], id
    [`b-${prev.length}`]. *)
Definition appended (s : Feed) : BoardModel :=
  createBoardFromPreset (presetAt (cursorRef s)) (boardId (length (boards s))).

(** ** The [Board] component *)

Definition GREEN : string := "#739552".
Definition BEIGE : string := "#ebecd0".

(** The verbose move records of chess.js, with the fields the component
    reads. *)
Module Move.
Record t := mk { from : Square; to : Square; flags : string }.
End Move.

Inductive PieceLetter := piece_p | piece_r | piece_n | piece_b | piece_q | piece_k.

Record Piece := { type : PieceLetter; color : Side }.

(** What [chess.move] can do: return the move made (the object is then in
    the position after it), return [null], or throw; in the last two
    cases the position is as before. *)
Inductive MoveResult (P : Type) :=
  | Played (m : Move.t) (after : P)
  | ReturnedNull
  | Threw.
Arguments Played {P} m after.
Arguments ReturnedNull {P}.
Arguments Threw {P}.

(** The chess.js calls of the component, over positions [P]:
    [chess.get(sq)], [chess.turn()], [chess.moves({ square, verbose })]
    ([None] when the call throws) and [chess.move({ from, to, promotion })]. *)
Class Rules (P : Type) := {
  chess_get : P → Square → option Piece;
  chess_turn : P → Side;
  chess_moves : P → Square → option (list Move.t);
  chess_move : P → Square → Square → PromotionPiece → MoveResult P
}.

(** [String.fromCharCode("a".charCodeAt(0) + c) + (8 - r).toString()];
    the character is exact for [c < 159], which covers the board. *)
Definition toSquare (r c : nat) : Square :=
  String (ascii_of_nat (97 + c)) "" +:+ pretty (8 - Z.of_nat r)%Z.

(** [(r + c) % 2 === 0] *)
Definition isDark (r c : nat) : bool := (r + c) `mod` 2 =? 0.

(** [bg = isDark ? BEIGE : GREEN] *)
Definition squareBackground (r c : nat) : string :=
  if isDark r c then BEIGE else GREEN.

(** [moves.some((m) => m.to === sq)] *)
Definition isMoveTarget (moves : list Move.t) (sq : Square) : bool :=
  existsb (λ m, bool_decide (Move.to m = sq)) moves.

(** [moves.find((m) => m.to === sq)] *)
Definition moveForTarget (moves : list Move.t) (sq : Square) : option Move.t :=
  List.find (λ m, bool_decide (Move.to m = sq)) moves.

(** [flags.includes(ch)] for a one-character [ch]. *)
Fixpoint includes (ch : ascii) (flags : string) : bool :=
  match flags with
  | EmptyString => false
  | String a rest => bool_decide (a = ch) || includes ch rest
  end.

(** [flags.includes('c') || flags.includes('e')] *)
Definition isCapture (m : Move.t) : bool :=
  includes "c"%char (Move.flags m) || includes "e"%char (Move.flags m).

(** The state a [Board] works on: the position inside its [Chess] object
    and the two [useState] cells. *)
Record BoardView (P : Type) := {
  position : P;
  selected : option Square;
  moves : list Move.t
}.
Arguments position {P} _.
Arguments selected {P} _.
Arguments moves {P} _.

#[global] Instance Side_eq_dec : EqDecision Side.
Proof. solve_decision. Defined.

(** [piece && piece.color === chess.turn()] *)
Definition ownPiece `{Rules P} (pos : P) (sq : Square) : bool :=
  match chess_get pos sq with
  | Some piece => bool_decide (color piece = chess_turn pos)
  | None => false
  end.

(** [let legal = []; try { legal = chess.moves(...) } catch {}] *)
Definition legalFrom `{Rules P} (pos : P) (sq : Square) : list Move.t :=
  default [] (chess_moves pos sq).

(** [onSquarePress(r, c)]: the new state and, when [onMovePlayed] is
    called, the move and capture flag it is called with. *)
Definition onSquarePress `{Rules P} (r c : nat) (v : BoardView P)
    : BoardView P * option (LastMove.t * bool) :=
  let sq := toSquare r c in
  let select :=
    {| position := position v; selected := Some sq;
       moves := legalFrom (position v) sq |} in
  let clear := {| position := position v; selected := None; moves := [] |} in
  match selected v with
  | None => if ownPiece (position v) sq then (select, None) else (v, None)
  | Some sel =>
      if bool_decide (sq = sel) then (clear, None)
      else match moveForTarget (moves v) sq with
           | Some mv =>
               match chess_move (position v) (Move.from mv) (Move.to mv) promo_q with
               | Played played after =>
                   ({| position := after; selected := None; moves := [] |},
                    Some (LastMove.mk (Move.from played) (Move.to played),
                          isCapture played))
               | ReturnedNull => (clear, None)
               | Threw => (v, None)
               end
           | None =>
               if ownPiece (position v) sq then (select, None) else (clear, None)
           end
  end.

(** A sequence of presses, oldest first, with the reports made. *)
Fixpoint pressAll `{Rules P} (presses : list (nat * nat)) (v : BoardView P)
    : BoardView P * list (LastMove.t * bool) :=
  match presses with
  | [] => (v, [])
  | (r, c) :: rest =>
      let '(v1, report) := onSquarePress r c v in
      let '(v2, reports) := pressAll rest v1 in
      (v2, option_list report ++ reports)
  end.

(** ** The status banner and the memoised board *)

Record Banner := {
  text : string;
  bgColor : string;
  icon : option string;
  whiteText : bool
}.

(** The banner rendered under the tactic of the current board. *)
Definition statusBanner (item : BoardModel) : Banner :=
  let isSolved := solved item in
  let isCorrect := bool_decide (lastMoveCorrect item = Some true) in
  let isIncorrect := bool_decide (lastMoveCorrect item = Some false) in
  {| text := if isSolved then "Solution found"
             else if bool_decide (lastMoveCorrect item = None)
             then "Can You Solve This Puzzle?"
             else if isCorrect then "Correct move" else "Incorrect move";
     bgColor := if isSolved || isCorrect then "#2ecc71"
                else if isIncorrect then "#e74c3c"
                else "rgba(255, 255, 255, 1)";
     icon := if isCorrect || isSolved then Some "checkmark"
             else if isIncorrect then Some "close" else None;
     whiteText := isSolved || isCorrect |}.

(** The comparison given to [React.memo]: [true] lets React skip the
    render.  [size] is a number that is never [NaN], so [===] on it is
    equality in whatever type [Size] it is measured in. *)
Definition MemoBoard_areEqual {Size : Type} `{EqDecision Size}
    (prevModel : BoardModel) (prevSize : Size)
    (nextModel : BoardModel) (nextSize : Size) : bool :=
  bool_decide (id prevModel = id nextModel)
  && bool_decide (version prevModel = version nextModel)
  && bool_decide (prevSize = nextSize).

(** The last-move overlay of a square: its colour, if the square is the
    origin or destination of [model.lastMove]. *)
Definition lastMoveHighlight (model : BoardModel) (sq : Square) : option string :=
  match lastMove model with
  | Some lm =>
      if bool_decide (LastMove.from lm = sq) || bool_decide (LastMove.to lm = sq)
      then Some (match lastMoveCorrect model with
                 | None => "rgba(255,225,0,0.25)"
                 | Some true => "rgba(46,204,113,0.35)"
                 | Some false => "rgba(231,76,60,0.35)"
                 end)
      else None
  | None => None
  end.

(** The correctness icon of a square: drawn on the destination of
    [model.lastMove] once [lastMoveCorrect] is defined. *)
Definition correctnessIcon (model : BoardModel) (sq : Square) : option string :=
  match lastMove model with
  | Some lm =>
      if bool_decide (LastMove.to lm = sq)
      then match lastMoveCorrect model with
           | Some correct =>
               Some (if correct then "checkmark-circle" else "close-circle")
           | None => None
           end
      else None
  | None => None
  end.

(** ** Lookahead *)

(** [ensurePreload(idx)]: [if (boards.length - idx < 3) addBoard()], where
    [boardsLength] is the length of [boards] as the closure sees it.  The
    difference is negative in JavaScript exactly when it is cut to 0 here,
    and both are below 3. *)
Definition ensurePreload (boardsLength idx : nat) (s : Feed) : Feed :=
  if boardsLength - idx <? 3 then addBoard s else s.

(** Calls of [addBoard] among the events. *)
Fixpoint addBoardCalls (evs : list Event) : nat :=
  match evs with
  | [] => 0
  | EvAddBoard :: rest => S (addBoardCalls rest)
  | _ :: rest => addBoardCalls rest
  end.

(** ** Sample data for the board view *)

(** A toy rules engine over a one-bit position: white has a pawn on e2
    that may go to e4; once it has moved nothing else can. *)
#[global] Instance toyRules : Rules bool := {
  chess_get pos sq :=
    if pos then
      (if bool_decide (sq = "e4") then Some {| type := piece_p; color := side_w |} else None)
    else
      (if bool_decide (sq = "e2") then Some {| type := piece_p; color := side_w |} else None);
  chess_turn pos := if pos then side_b else side_w;
  chess_moves pos sq :=
    if pos then Some []
    else if bool_decide (sq = "e2") then Some [Move.mk "e2" "e4" "b"] else Some [];
  chess_move pos f t _ :=
    if pos then Threw
    else if bool_decide (f = "e2") && bool_decide (t = "e4")
         then Played (Move.mk "e2" "e4" "b") true
         else ReturnedNull
}.

Definition toyStart : BoardView bool :=
  {| position := false; selected := None; moves := [] |}.

(** ** The randomised feed ([my-app/app/(tabs)/puzzles.tsx]) *)

Module MyApp.

Record BoardModel := {
  id : string;
  chess : Chess;
  liked : bool;
  starred : bool;
  version : nat;
  tactic : string
}.

(** [createBoard(id)]; the position reached by the random plies and the
    tactic label drawn are the two outcomes of its [Math.random] calls. *)
Definition createBoard (drawn : Chess * string) (bid : string) : BoardModel :=
  {| id := bid; chess := drawn.1; liked := false; starred := false;
     version := 0; tactic := drawn.2 |}.

(** [Array.from({ length: initial }, (_, i) => createBoard(`b-${i}`))],
    one pair of outcomes per board. *)
Definition useBoards (draws : list (Chess * string)) : list BoardModel :=
  imap (λ i drawn, createBoard drawn (boardId i)) draws.

(** The updater of [addBoard]: [[...prev, createBoard(`b-${prev.length}`)]] *)
Definition appendBoard (drawn : Chess * string) (prev : list BoardModel)
    : list BoardModel :=
  prev ++ [createBoard drawn (boardId (length prev))].

(** [prev.map(b => b.id === id ? { ...b, version: b.version + 1 } : b)] *)
Definition onBoardPositionChange (bid : string) (prev : list BoardModel)
    : list BoardModel :=
  (λ b, if bool_decide (id b = bid)
        then {| id := id b; chess := chess b; liked := liked b;
                starred := starred b; version := version b + 1;
                tactic := tactic b |}
        else b) <$> prev.

(** [prev.map(b => b.id === item.id ? { ...b, liked: !b.liked } : b)] *)
Definition toggleLike (bid : string) (prev : list BoardModel) : list BoardModel :=
  (λ b, if bool_decide (id b = bid)
        then {| id := id b; chess := chess b; liked := negb (liked b);
                starred := starred b; version := version b;
                tactic := tactic b |}
        else b) <$> prev.

(** [prev.map(b => b.id === item.id ? { ...b, starred: !b.starred } : b)] *)
Definition toggleStar (bid : string) (prev : list BoardModel) : list BoardModel :=
  (λ b, if bool_decide (id b = bid)
        then {| id := id b; chess := chess b; liked := liked b;
                starred := negb (starred b); version := version b;
                tactic := tactic b |}
        else b) <$> prev.

(** [onDoubleTap] and [onTapLike]:
    [prev.map((b, i) => i === currentIndex ? { ...b, liked: !b.liked } : b)] *)
Definition onTapLike (currentIndex : nat) (prev : list BoardModel) : list BoardModel :=
  imap (λ i b, if bool_decide (i = currentIndex)
               then {| id := id b; chess := chess b; liked := negb (liked b);
                       starred := starred b; version := version b;
                       tactic := tactic b |}
               else b) prev.

(** [onTapStar]:
    [prev.map((b, i) => i === currentIndex ? { ...b, starred: !b.starred } : b)] *)
Definition onTapStar (currentIndex : nat) (prev : list BoardModel) : list BoardModel :=
  imap (λ i b, if bool_decide (i = currentIndex)
               then {| id := id b; chess := chess b; liked := liked b;
                       starred := negb (starred b); version := version b;
                       tactic := tactic b |}
               else b) prev.

Inductive Event :=
  | EvAppend (drawn : Chess * string)
  | EvPositionChange (bid : string)
  | EvToggleLike (bid : string)
  | EvToggleStar (bid : string)
  | EvTapLike (currentIndex : nat)
  | EvTapStar (currentIndex : nat).

Definition step (e : Event) (prev : list BoardModel) : list BoardModel :=
  match e with
  | EvAppend drawn => appendBoard drawn prev
  | EvPositionChange bid => onBoardPositionChange bid prev
  | EvToggleLike bid => toggleLike bid prev
  | EvToggleStar bid => toggleStar bid prev
  | EvTapLike k => onTapLike k prev
  | EvTapStar k => onTapStar k prev
  end.

Definition run (evs : list Event) (prev : list BoardModel) : list BoardModel :=
  foldl (λ p e, step e p) prev evs.

(** Position changes addressed to [bid] among the events. *)
Fixpoint positionChanges (bid : string) (evs : list Event) : nat :=
  match evs with
  | [] => 0
  | EvPositionChange bid' :: rest =>
      (if bool_decide (bid' = bid) then 1 else 0) + positionChanges bid rest
  | _ :: rest => positionChanges bid rest
  end.

End MyApp.

(** * Properties *)

(** ** The scenarios of the first feed *)

(** Scenario A: [e2e4] solves the first puzzle and sets the 550 ms advance. *)
Example scenario_A :
  let s := run [EvMovePlayed "b-0" e2e4] (useBoards 2) in
  (stepIndex <$> boards s !! 0, solved <$> boards s !! 0,
   lastMoveCorrect <$> boards s !! 0, scrollTimers s)
  = (Some 1, Some true, Some (Some true), [ {| delay := 550; index := 1 |} ]).
Proof. reflexivity. Qed.

(** Scenario B: [d2d4] is marked incorrect and sets the 350 ms advance. *)
Example scenario_B :
  let s := run [EvMovePlayed "b-0" d2d4] (useBoards 2) in
  (stepIndex <$> boards s !! 0, solved <$> boards s !! 0,
   lastMoveCorrect <$> boards s !! 0, scrollTimers s)
  = (Some 0, Some false, Some (Some false), [ {| delay := 350; index := 1 |} ]).
Proof. reflexivity. Qed.

(** Scenario C: the two-step solution of the third puzzle. *)
Example scenario_C :
  let s0 := run [EvAddBoard; EvAppendTimer] (useBoards 2) in
  let s1 := step (EvMovePlayed "b-2" (LastMove.mk "d4" "e5")) s0 in
  let s2 := step (EvMovePlayed "b-2" (LastMove.mk "f3" "d4")) s1 in
  (stepIndex <$> boards s1 !! 2, solved <$> boards s1 !! 2, scrollTimers s1,
   stepIndex <$> boards s2 !! 2, solved <$> boards s2 !! 2, scrollTimers s2)
  = (Some 1, Some false, [],
     Some 2, Some true, [ {| delay := 550; index := 2 |} ]).
Proof. reflexivity. Qed.

(** Scenario D: starring twice restores [starred] and never touches [liked]. *)
Example scenario_D :
  let once := toggleStar "b-0" feed2 in
  let twice := toggleStar "b-0" once in
  (starred <$> once !! 0, liked <$> once !! 0,
   starred <$> twice !! 0, liked <$> twice !! 0)
  = (Some true, Some false, Some false, Some false).
Proof. reflexivity. Qed.

(** ** The callback on one board *)

Section OneBoard.
Context (last : LastMove.t) (b : BoardModel).

(** Both branches of the callback, each with its equation. *)
Ltac both_branches eqn_correct eqn_incorrect :=
  let Hm := fresh "Hm" in
  destruct (playedMatches b last) eqn:Hm;
  [rewrite eqn_correct | rewrite eqn_incorrect]; done.

Lemma movePlayedAt_other bid prev i :
  id b ≠ bid → movePlayedAt bid last prev i b = (b, []).
Proof. intros Hne. unfold movePlayedAt. by rewrite bool_decide_eq_true_2. Qed.

Lemma movePlayedAt_board bid prev i :
  (movePlayedAt bid last prev i b).1
  = if bool_decide (id b = bid) then play last b else b.
Proof.
  unfold play, movePlayedAt.
  rewrite (bool_decide_eq_false_2 (id b ≠ id b)); [|naive_solver].
  destruct (decide (id b = bid)) as [Hid|Hid].
  - rewrite bool_decide_eq_false_2, bool_decide_eq_true_2; [|done|naive_solver].
    by destruct (playedMatches b last).
  - by rewrite bool_decide_eq_true_2, bool_decide_eq_false_2.
Qed.

Lemma play_incorrect :
  playedMatches b last = false →
  play last b =
    {| id := id b; chess := chess b; liked := liked b; starred := starred b;
       version := version b + 1;
       tactic := tactic b; sideToPlay := sideToPlay b;
       lastMove := Some last; solution := solution b;
       stepIndex := stepIndex b; solved := solved b;
       correctSquares := []; lastMoveCorrect := Some false |}.
Proof.
  intros Hm. unfold play, movePlayedAt.
  rewrite bool_decide_eq_false_2; [|naive_solver]. by rewrite Hm.
Qed.

Lemma play_correct :
  playedMatches b last = true →
  play last b =
    {| id := id b; chess := chess b; liked := liked b; starred := starred b;
       version := version b + 1;
       tactic := tactic b; sideToPlay := sideToPlay b;
       lastMove := Some last; solution := solution b;
       stepIndex := stepIndex b + 1;
       solved := if solvedNow b then true else solved b;
       correctSquares := [LastMove.to last]; lastMoveCorrect := Some true |}.
Proof.
  intros Hm. unfold play, movePlayedAt.
  rewrite bool_decide_eq_false_2; [|naive_solver]. by rewrite Hm.
Qed.

Lemma play_id : id (play last b) = id b.
Proof.
  both_branches play_correct play_incorrect.
Qed.

Lemma play_solution : solution (play last b) = solution b.
Proof.
  both_branches play_correct play_incorrect.
Qed.

Lemma play_version : version (play last b) = version b + 1.
Proof.
  both_branches play_correct play_incorrect.
Qed.

Lemma play_lastMove : lastMove (play last b) = Some last.
Proof.
  both_branches play_correct play_incorrect.
Qed.

Lemma play_lastMoveCorrect :
  lastMoveCorrect (play last b) = Some (playedMatches b last).
Proof.
  both_branches play_correct play_incorrect.
Qed.

Lemma play_stepIndex :
  stepIndex (play last b)
  = if playedMatches b last then stepIndex b + 1 else stepIndex b.
Proof.
  both_branches play_correct play_incorrect.
Qed.

Lemma play_solved :
  solved (play last b)
  = if playedMatches b last && solvedNow b then true else solved b.
Proof.
  both_branches play_correct play_incorrect.
Qed.

Lemma play_static :
  chess (play last b) = chess b ∧ liked (play last b) = liked b
  ∧ starred (play last b) = starred b ∧ tactic (play last b) = tactic b
  ∧ sideToPlay (play last b) = sideToPlay b.
Proof.
  both_branches play_correct play_incorrect.
Qed.

Lemma playedMatches_expected e :
  solution b !! stepIndex b = Some e →
  playedMatches b last = true
  ↔ MoveSpec.from e = LastMove.from last ∧ MoveSpec.to e = LastMove.to last.
Proof.
  intros He. unfold playedMatches. rewrite He.
  rewrite andb_true_iff, !bool_decide_eq_true. done.
Qed.

Lemma playedMatches_beyond :
  length (solution b) ≤ stepIndex b → playedMatches b last = true.
Proof.
  intros Hge. unfold playedMatches. by rewrite lookup_ge_None_2.
Qed.

Lemma solvedNow_spec :
  solvedNow b = true
  ↔ 0 < length (solution b) ∧ length (solution b) ≤ stepIndex b + 1.
Proof.
  unfold solvedNow.
  rewrite andb_true_iff, Nat.leb_le, Nat.ltb_lt. lia.
Qed.
End OneBoard.

(** ** From one board to the feed *)

Lemma onMovePlayed_length bid last prev :
  length (onMovePlayed bid last prev).1 = length prev.
Proof. unfold onMovePlayed. simpl. by rewrite length_fmap, length_imap. Qed.

Lemma onMovePlayed_lookup bid last prev i :
  (onMovePlayed bid last prev).1 !! i
  = (λ b, if bool_decide (id b = bid) then play last b else b) <$> prev !! i.
Proof.
  unfold onMovePlayed. simpl.
  rewrite list_lookup_fmap, list_lookup_imap.
  destruct (prev !! i) as [b|]; simpl; [|done].
  by rewrite movePlayedAt_board.
Qed.

Lemma onMovePlayed_target last prev i b :
  prev !! i = Some b →
  (onMovePlayed (id b) last prev).1 !! i = Some (play last b).
Proof.
  intros Hi. rewrite onMovePlayed_lookup, Hi. simpl.
  by rewrite bool_decide_eq_true_2.
Qed.

Lemma playFeed_target moves : ∀ prev i b,
  prev !! i = Some b →
  playFeed (id b) moves prev !! i = Some (playAll moves b).
Proof.
  induction moves as [|m moves IH]; intros prev i b Hi; [done|].
  simpl. rewrite <- (play_id m b).
  apply IH. rewrite play_id. by apply onMovePlayed_target.
Qed.

Lemma playAll_app ms1 ms2 b :
  playAll (ms1 ++ ms2) b = playAll ms2 (playAll ms1 b).
Proof. unfold playAll. by rewrite foldl_app. Qed.

Lemma playAll_id moves : ∀ b, id (playAll moves b) = id b.
Proof.
  induction moves as [|m moves IH]; intros b; [done|].
  simpl. by rewrite IH, play_id.
Qed.

Lemma playAll_solution moves : ∀ b, solution (playAll moves b) = solution b.
Proof.
  induction moves as [|m moves IH]; intros b; [done|].
  simpl. by rewrite IH, play_solution.
Qed.

(** ** Classification of a played move *)

Lemma playedMatches_from_to_only b1 b2 last :
  stepIndex b2 = stepIndex b1 →
  asPlayed <$> solution b2 = asPlayed <$> solution b1 →
  playedMatches b2 last = playedMatches b1 last.
Proof.
  intros Hstep Hsol. unfold playedMatches. rewrite Hstep.
  assert ((asPlayed <$> solution b2) !! stepIndex b1
          = (asPlayed <$> solution b1) !! stepIndex b1) as Hk by by rewrite Hsol.
  rewrite !list_lookup_fmap in Hk.
  destruct (solution b2 !! stepIndex b1) as [e2|],
           (solution b1 !! stepIndex b1) as [e1|]; simplify_eq/=; try done.
  destruct e1, e2. unfold asPlayed in *. by simplify_eq/=.
Qed.

(** C3. On a board whose [stepIndex] is below the length of its solution,
    the move played is marked correct exactly when its from-square and its
    to-square are those of [solution[stepIndex]], and marked incorrect
    exactly when they are not.  The played move carries no promotion piece,
    and two boards whose solutions agree on every from/to pair classify
    every move alike, whatever the promotion pieces of their steps. *)
Theorem C3_correct_iff_from_to
    (prev : list BoardModel) (i : nat) (b : BoardModel)
    (e : MoveSpec.t) (last : LastMove.t) :
  prev !! i = Some b →
  solution b !! stepIndex b = Some e →
  ∃ b', (onMovePlayed (id b) last prev).1 !! i = Some b'
    ∧ (lastMoveCorrect b' = Some true
       ↔ MoveSpec.from e = LastMove.from last ∧ MoveSpec.to e = LastMove.to last)
    ∧ (lastMoveCorrect b' = Some false
       ↔ ¬ (MoveSpec.from e = LastMove.from last ∧ MoveSpec.to e = LastMove.to last))
    ∧ (∀ b2, stepIndex b2 = stepIndex b →
             asPlayed <$> solution b2 = asPlayed <$> solution b →
             playedMatches b2 last = playedMatches b last).
Proof.
  intros Hi He. exists (play last b).
  split; [by apply onMovePlayed_target|].
  rewrite play_lastMoveCorrect.
  pose proof (playedMatches_expected last b e He) as Hiff.
  split_and!.
  - rewrite <- Hiff. split; [by intros [= Hm] | by intros ->].
  - rewrite <- Hiff. split; [intros [= Hm]; congruence|].
    intros Hn. f_equal. by apply not_true_is_false.
  - intros b2. apply playedMatches_from_to_only.
Qed.

Lemma C3_correct_iff_from_to_witness :
  ∃ b', (onMovePlayed (id board0) e2e4 feed2).1 !! 0 = Some b'
    ∧ (lastMoveCorrect b' = Some true
       ↔ MoveSpec.from (ms "e2" "e4") = LastMove.from e2e4
         ∧ MoveSpec.to (ms "e2" "e4") = LastMove.to e2e4)
    ∧ (lastMoveCorrect b' = Some false
       ↔ ¬ (MoveSpec.from (ms "e2" "e4") = LastMove.from e2e4
            ∧ MoveSpec.to (ms "e2" "e4") = LastMove.to e2e4))
    ∧ (∀ b2, stepIndex b2 = stepIndex board0 →
             asPlayed <$> solution b2 = asPlayed <$> solution board0 →
             playedMatches b2 e2e4 = playedMatches board0 e2e4).
Proof.
  apply (C3_correct_iff_from_to feed2 0 board0 (ms "e2" "e4") e2e4);
    vm_compute; reflexivity.
Defined.

(** C4. On a board whose [stepIndex] is below the length of its solution,
    a move whose from/to differ from [solution[stepIndex]] leaves
    [stepIndex] and [solved] as they were, sets [lastMoveCorrect] to
    [false] and [lastMove] to the move played.  The board is not reset:
    id, chess handle, reactions, labels and solution are kept; and it stays
    playable: the same step is still expected, and playing it next is
    accepted and advances [stepIndex] by one. *)
Theorem C4_incorrect_move_keeps_progress
    (prev : list BoardModel) (i : nat) (b : BoardModel)
    (e : MoveSpec.t) (last : LastMove.t) :
  prev !! i = Some b →
  solution b !! stepIndex b = Some e →
  ¬ (MoveSpec.from e = LastMove.from last ∧ MoveSpec.to e = LastMove.to last) →
  ∃ b', (onMovePlayed (id b) last prev).1 !! i = Some b'
    ∧ stepIndex b' = stepIndex b
    ∧ solved b' = solved b
    ∧ lastMoveCorrect b' = Some false
    ∧ lastMove b' = Some last
    ∧ (id b' = id b ∧ chess b' = chess b ∧ liked b' = liked b
       ∧ starred b' = starred b ∧ tactic b' = tactic b
       ∧ sideToPlay b' = sideToPlay b ∧ solution b' = solution b)
    ∧ solution b' !! stepIndex b' = Some e
    ∧ lastMoveCorrect (play (asPlayed e) b') = Some true
    ∧ stepIndex (play (asPlayed e) b') = stepIndex b + 1.
Proof.
  intros Hi He Hne.
  assert (playedMatches b last = false) as Hm.
  { apply not_true_is_false. intros Hm.
    by apply Hne, (playedMatches_expected last b e He). }
  exists (play last b). split; [by apply onMovePlayed_target|].
  assert (playedMatches (play last b) (asPlayed e) = true) as Hm'.
  { apply (playedMatches_expected _ _ e); [|done].
    by rewrite play_incorrect. }
  rewrite (play_lastMoveCorrect (asPlayed e)), (play_stepIndex (asPlayed e)), Hm'.
  rewrite (play_incorrect last b Hm). simpl. by rewrite He.
Qed.

Lemma C4_incorrect_move_keeps_progress_witness :
  ∃ b', (onMovePlayed (id board0) d2d4 feed2).1 !! 0 = Some b'
    ∧ stepIndex b' = 0 ∧ solved b' = false
    ∧ lastMoveCorrect b' = Some false ∧ lastMove b' = Some d2d4.
Proof.
  destruct (C4_incorrect_move_keeps_progress feed2 0 board0 (ms "e2" "e4") d2d4)
    as (b' & Hb' & Hstep & Hsolved & Hcorrect & Hlast & _).
  - reflexivity.
  - reflexivity.
  - vm_compute. intros [H _]. discriminate H.
  - exists b'. auto.
Defined.

(** ** Progress along the solution *)

Lemma play_solved_sticky last b : solved b = true → solved (play last b) = true.
Proof. intros Hs. rewrite play_solved, Hs. by destruct (_ && _). Qed.

Lemma playAll_solved_sticky moves : ∀ b,
  solved b = true → solved (playAll moves b) = true.
Proof.
  induction moves as [|m moves IH]; intros b Hs; [done|].
  simpl. by apply IH, play_solved_sticky.
Qed.

Lemma play_empty_unsolved last b :
  solution b = [] → solved (play last b) = solved b.
Proof.
  intros Hsol. rewrite play_solved.
  assert (solvedNow b = false) as ->; [|by rewrite andb_false_r].
  apply not_true_is_false. rewrite solvedNow_spec, Hsol. simpl. lia.
Qed.

(** Following the solution from a board that has not advanced yet: after
    the first [k] steps, [stepIndex] is [k] and [solved] holds exactly
    when [k] is the whole solution. *)
Lemma playAll_solution_prefix b :
  solution b ≠ [] → stepIndex b = 0 → solved b = false →
  ∀ k, k ≤ length (solution b) →
    stepIndex (playAll (asPlayed <$> take k (solution b)) b) = k
    ∧ (solved (playAll (asPlayed <$> take k (solution b)) b) = true
       ↔ k = length (solution b)).
Proof.
  intros Hne Hstep Hsolved.
  assert (0 < length (solution b)) as Hlen by (destruct (solution b); simpl; [done|lia]).
  induction k as [|k IH]; intros Hk.
  - simpl. rewrite Hstep, Hsolved. split; [done|]. split; [done|lia].
  - destruct (lookup_lt_is_Some_2 (solution b) k) as [e He]; [lia|].
    rewrite (take_S_r _ _ _ He), fmap_app, playAll_app. simpl.
    destruct IH as [IHstep IHsolved]; [lia|].
    set (bk := playAll (asPlayed <$> take k (solution b)) b) in *.
    assert (solution bk = solution b) as Hsol by apply playAll_solution.
    assert (playedMatches bk (asPlayed e) = true) as Hm.
    { apply (playedMatches_expected _ _ e); [|done]. by rewrite Hsol, IHstep. }
    rewrite play_stepIndex, play_solved, Hm, IHstep. simpl.
    split; [lia|].
    destruct (solvedNow bk) eqn:Hnow.
    + apply solvedNow_spec in Hnow. rewrite Hsol, IHstep in Hnow.
      split; [lia|done].
    + assert (¬ (0 < length (solution bk) ∧ length (solution bk) ≤ stepIndex bk + 1))
        as Hnot by (rewrite <- solvedNow_spec; congruence).
      rewrite Hsol, IHstep in Hnot.
      split; [|lia]. intros Hs. apply IHsolved in Hs. lia.
Qed.

(** ** Moves beyond the end of the solution *)

(** C1, as the code has it.  On a board whose [stepIndex] is at least the
    length of its solution there is no expected step, and the move played
    counts as matching: [stepIndex] grows by one (so it exceeds the length
    of the solution), [lastMove] becomes the move played,
    [lastMoveCorrect] becomes [true], and [solved] becomes [true] unless
    the solution is empty, in which case it is kept. *)
Theorem C1_move_beyond_solution_counts_as_correct
    (prev : list BoardModel) (i : nat) (b : BoardModel) (last : LastMove.t) :
  prev !! i = Some b →
  length (solution b) ≤ stepIndex b →
  ∃ b', (onMovePlayed (id b) last prev).1 !! i = Some b'
    ∧ stepIndex b' = stepIndex b + 1
    ∧ length (solution b') < stepIndex b'
    ∧ lastMove b' = Some last
    ∧ lastMoveCorrect b' = Some true
    ∧ solved b' = (if bool_decide (solution b = []) then solved b else true).
Proof.
  intros Hi Hge. exists (play last b).
  split; [by apply onMovePlayed_target|].
  pose proof (playedMatches_beyond last b Hge) as Hm.
  rewrite play_stepIndex, play_solution, play_lastMove,
    play_lastMoveCorrect, play_solved, Hm. simpl.
  split_and!; [done|lia|done|done|].
  case_bool_decide as Hsol.
  - pose proof (play_empty_unsolved last b Hsol) as He.
    by rewrite play_solved, Hm in He.
  - assert (solvedNow b = true) as ->; [|done].
    apply solvedNow_spec. destruct (solution b); simpl in *; [done|lia].
Qed.

Lemma C1_move_beyond_solution_counts_as_correct_witness :
  ∃ b', (onMovePlayed "b-0" e7e5 (onMovePlayed "b-0" e2e4 feed2).1).1 !! 0 = Some b'
    ∧ stepIndex b' = 2 ∧ lastMove b' = Some e7e5
    ∧ lastMoveCorrect b' = Some true ∧ solved b' = true.
Proof.
  destruct (C1_move_beyond_solution_counts_as_correct
              (onMovePlayed "b-0" e2e4 feed2).1 0 (play e2e4 board0) e7e5)
    as (b' & Hb' & Hstep & _ & Hlast & Hcorrect & Hsolved).
  - reflexivity.
  - vm_compute. lia.
  - exists b'. auto.
Defined.

(** C1 as stated fails on the first puzzle of the feed: once [e2e4] has
    solved it ([stepIndex = 1], the length of its solution), the reply
    [e7e5] played on the same board changes [stepIndex] and [lastMove],
    and [stepIndex] is then 2, above the length of the solution. *)
Lemma C1_counterexample :
  ∃ b b',
    (onMovePlayed "b-0" e2e4 feed2).1 !! 0 = Some b
    ∧ length (solution b) = 1 ∧ stepIndex b = 1 ∧ solved b = true
    ∧ (onMovePlayed "b-0" e7e5 (onMovePlayed "b-0" e2e4 feed2).1).1 !! 0 = Some b'
    ∧ stepIndex b' = 2
    ∧ stepIndex b' ≠ stepIndex b
    ∧ lastMove b' ≠ lastMove b
    ∧ length (solution b') < stepIndex b'.
Proof.
  eexists _, _. split; [reflexivity|].
  split; [reflexivity|]. split; [reflexivity|]. split; [reflexivity|].
  split; [reflexivity|]. split; [reflexivity|].
  split; [vm_compute; lia|]. split; [vm_compute; discriminate|].
  vm_compute. lia.
Qed.

(** ** One step of the feed: map in place, or append at the end *)

Lemma toggleLike_lookup bid prev i :
  toggleLike bid prev !! i
  = (λ b, if bool_decide (id b = bid) then withLiked (negb (liked b)) b else b)
      <$> prev !! i.
Proof. unfold toggleLike. by rewrite list_lookup_fmap. Qed.

Lemma toggleStar_lookup bid prev i :
  toggleStar bid prev !! i
  = (λ b, if bool_decide (id b = bid) then withStarred (negb (starred b)) b else b)
      <$> prev !! i.
Proof. unfold toggleStar. by rewrite list_lookup_fmap. Qed.

Lemma step_boards e s :
  (cursorRef (step e s) = cursorRef s
   ∧ ∃ f : nat → BoardModel → BoardModel,
       (∀ i b, evolves b (f i b)) ∧ boards (step e s) = imap f (boards s))
  ∨ (0 < appendTimers s ∧ e = EvAppendTimer
     ∧ cursorRef (step e s) = cursorRef s + 1
     ∧ boards (step e s) = boards s ++ [appended s]).
Proof.
  assert (∀ l : list BoardModel, l = imap (λ _ b, b) l) as Hsame.
  { intros l. apply list_eq. intros i. rewrite list_lookup_imap.
    by destruct (l !! i). }
  destruct e as [| |bid last|bid|bid|k|k]; unfold step, setBoards; cbn [boards cursorRef].
  - left. split; [unfold addBoard; by destruct (loadingRef s)|].
    exists (λ _ b, b). split; [intros; constructor|].
    unfold addBoard. destruct (loadingRef s); simpl; apply Hsame.
  - unfold appendTimerFired. destruct (appendTimers s) as [|n] eqn:Hn.
    + left. split; [done|]. exists (λ _ b, b). split; [intros; constructor|].
      apply Hsame.
    + right. simpl. split_and!; [lia|done|done|done].
  - left. split; [done|].
    exists (λ _ b, if bool_decide (id b = bid) then play last b else b). split.
    + intros i b. case_bool_decide; constructor.
    + apply list_eq. intros i.
      by rewrite onMovePlayed_lookup, list_lookup_imap.
  - left. split; [done|].
    exists (λ _ b, if bool_decide (id b = bid) then withLiked (negb (liked b)) b else b).
    split; [intros i b; case_bool_decide; constructor|].
    apply list_eq. intros i. by rewrite toggleLike_lookup, list_lookup_imap.
  - left. split; [done|].
    exists (λ _ b, if bool_decide (id b = bid) then withStarred (negb (starred b)) b else b).
    split; [intros i b; case_bool_decide; constructor|].
    apply list_eq. intros i. by rewrite toggleStar_lookup, list_lookup_imap.
  - left. split; [done|].
    exists (λ i b, if bool_decide (i = k) then withLiked (negb (liked b)) b else b).
    split; [intros i b; case_bool_decide; constructor|done].
  - left. split; [done|].
    exists (λ i b, if bool_decide (i = k) then withStarred (negb (starred b)) b else b).
    split; [intros i b; case_bool_decide; constructor|done].
Qed.

(** A board stays where it is, and only changes as [evolves] allows. *)
Lemma step_lookup e s i b :
  boards s !! i = Some b →
  ∃ b', boards (step e s) !! i = Some b' ∧ evolves b b'.
Proof.
  intros Hi. destruct (step_boards e s) as [[_ (f & Hf & Hl)]|(_ & _ & _ & Happ)].
  - exists (f i b). split; [by rewrite Hl, list_lookup_imap, Hi|apply Hf].
  - exists b. split; [|constructor]. rewrite Happ. by apply lookup_app_l_Some.
Qed.

(** Conversely every board of the new feed is an old one at the same
    place, or the board just appended behind all of them. *)
Lemma step_lookup_inv e s i b' :
  boards (step e s) !! i = Some b' →
  (∃ b, boards s !! i = Some b ∧ evolves b b')
  ∨ (i = length (boards s) ∧ b' = appended s
     ∧ cursorRef (step e s) = cursorRef s + 1).
Proof.
  intros Hi. destruct (step_boards e s) as [[_ (f & Hf & Hl)]|(_ & _ & Hc & Happ)].
  - left. rewrite Hl, list_lookup_imap in Hi.
    destruct (boards s !! i) as [b|]; [|done].
    exists b. split; [done|]. simpl in Hi. injection Hi as <-. apply Hf.
  - rewrite Happ in Hi. apply lookup_app_Some in Hi as [Hi|[Hge Hi]].
    + left. exists b'. split; [done|constructor].
    + right. destruct (i - length (boards s)) as [|n] eqn:Hn; [|done].
      simpl in Hi. injection Hi as <-. split_and!; [lia|done|done].
Qed.

Lemma run_snoc evs e s : run (evs ++ [e]) s = step e (run evs s).
Proof. unfold run. by rewrite foldl_app. Qed.

Lemma run_app evs1 evs2 s : run (evs1 ++ evs2) s = run evs2 (run evs1 s).
Proof. unfold run. by rewrite foldl_app. Qed.

Lemma evolves_id b b' : evolves b b' → id b' = id b.
Proof. destruct 1; [done|apply play_id|done|done]. Qed.

Lemma evolves_builtFrom p bid b b' :
  evolves b b' → builtFrom p bid b → builtFrom p bid b'.
Proof.
  unfold builtFrom. destruct 1 as [|last| |]; [done| |done|done].
  rewrite play_id, play_solution.
  destruct (play_static last b) as (-> & _ & _ & -> & ->). done.
Qed.

Lemma evolves_empty_unsolved b b' :
  evolves b b' → solution b = [] → solved b = false →
  solution b' = [] ∧ solved b' = false.
Proof.
  destruct 1 as [|last| |]; [done| |done|done].
  intros Hsol Hs. by rewrite play_solution, play_empty_unsolved.
Qed.

Lemma evolves_solved_sticky b b' :
  evolves b b' → solved b = true → solved b' = true.
Proof. destruct 1; [done|apply play_solved_sticky|done|done]. Qed.

Lemma run_solved_sticky evs : ∀ s i b,
  boards s !! i = Some b → solved b = true →
  ∃ b', boards (run evs s) !! i = Some b' ∧ solved b' = true.
Proof.
  induction evs as [|e evs IH]; intros s i b Hi Hs; [by exists b|].
  simpl. destruct (step_lookup e s i b Hi) as (b1 & Hi1 & Hev).
  apply (IH _ _ b1 Hi1). by apply (evolves_solved_sticky b).
Qed.

(** ** Solving a puzzle *)

(** C2. A board with a non-empty solution that has not advanced yet
    ([stepIndex = 0], not solved) and is fed its own solution steps, one
    [onMovePlayed] call each, has [stepIndex = k] after [k] calls, for every
    [k] up to the length of the solution, and is solved after exactly those
    prefixes that are the whole solution: [solved] turns true on the last
    step and on no earlier one.  From then on [solved] stays true, whatever
    handlers run on the feed (further moves, reactions, appends). *)
Theorem C2_solution_drives_to_solved
    (prev : list BoardModel) (i : nat) (b : BoardModel) :
  prev !! i = Some b →
  solution b ≠ [] → stepIndex b = 0 → solved b = false →
  (∀ k, k ≤ length (solution b) →
     ∃ b', playFeed (id b) (asPlayed <$> take k (solution b)) prev !! i = Some b'
       ∧ stepIndex b' = k
       ∧ (solved b' = true ↔ k = length (solution b)))
  ∧ (∀ s evs,
     boards s = playFeed (id b) (asPlayed <$> solution b) prev →
     ∃ b', boards (run evs s) !! i = Some b' ∧ solved b' = true).
Proof.
  intros Hi Hne Hstep Hsolved. split.
  - intros k Hk. eexists. split; [by apply playFeed_target|].
    by apply playAll_solution_prefix.
  - intros s evs Hs.
    apply (run_solved_sticky evs s i (playAll (asPlayed <$> solution b) b)).
    + rewrite Hs. by apply playFeed_target.
    + destruct (playAll_solution_prefix b Hne Hstep Hsolved (length (solution b)))
        as [_ Hsol]; [done|].
      rewrite firstn_all in Hsol. by apply Hsol.
Qed.

Lemma C2_solution_drives_to_solved_witness :
  (∀ k, k ≤ length (solution board0) →
     ∃ b', playFeed (id board0) (asPlayed <$> take k (solution board0)) feed2 !! 0 = Some b'
       ∧ stepIndex b' = k
       ∧ (solved b' = true ↔ k = length (solution board0)))
  ∧ (∀ s evs,
     boards s = playFeed (id board0) (asPlayed <$> solution board0) feed2 →
     ∃ b', boards (run evs s) !! 0 = Some b' ∧ solved b' = true).
Proof.
  apply (C2_solution_drives_to_solved feed2 0 board0);
    [reflexivity | vm_compute; discriminate | reflexivity | reflexivity].
Defined.

(** ** Empty solutions *)

(** C5. A board whose solution is empty and which is not solved (as every
    board is when created) is never solved later: whatever handlers run on
    the feed, in whatever order (moves played on it or on other boards,
    reactions, appends), the board found at the same place still has an
    empty solution and [solved = false]. *)
Theorem C5_empty_solution_never_solved
    (evs : list Event) (s : Feed) (i : nat) (b : BoardModel) :
  boards s !! i = Some b →
  solution b = [] → solved b = false →
  ∃ b', boards (run evs s) !! i = Some b'
      ∧ solution b' = [] ∧ solved b' = false.
Proof.
  revert s b. induction evs as [|e evs IH]; intros s b Hi Hsol Hs.
  - by exists b.
  - simpl. destruct (step_lookup e s i b Hi) as (b1 & Hi1 & Hev).
    destruct (evolves_empty_unsolved b b1 Hev Hsol Hs) as [Hsol1 Hs1].
    by apply (IH (step e s) b1).
Qed.

Lemma C5_empty_solution_never_solved_witness :
  ∃ b', boards (run [EvMovePlayed "b-0" e2e4; EvToggleLike "b-0";
                     EvMovePlayed "b-0" d2d4] emptyFeed) !! 0 = Some b'
      ∧ solution b' = [] ∧ solved b' = false.
Proof.
  apply (C5_empty_solution_never_solved _ emptyFeed 0 emptyBoard); reflexivity.
Defined.

(** ** Catalog cycling and feed order *)

Lemma presetAt_lookup n :
  PRESET_PUZZLES !! (n `mod` length PRESET_PUZZLES) = Some (presetAt n).
Proof.
  unfold presetAt. apply list_lookup_lookup_total_lt.
  apply Nat.mod_upper_bound. by vm_compute.
Qed.

Lemma createBoardFromPreset_builtFrom p bid :
  builtFrom p bid (createBoardFromPreset p bid).
Proof. by unfold builtFrom. Qed.

(** Invariant of the feed: the cursor equals the number of boards, and the
    board at place [i] is the one built from catalog entry [i mod K] under
    the id [b-i]. *)
Lemma run_invariant initial evs :
  cursorRef (run evs (useBoards initial)) = length (boards (run evs (useBoards initial)))
  ∧ ∀ i b, boards (run evs (useBoards initial)) !! i = Some b →
           builtFrom (presetAt i) (boardId i) b.
Proof.
  induction evs as [|e evs [IHc IHb]] using rev_ind.
  - simpl. split; [by rewrite length_fmap, length_seq|].
    intros i b Hi. rewrite list_lookup_fmap in Hi.
    destruct (seq 0 initial !! i) as [j|] eqn:Hj; [|done].
    apply lookup_seq in Hj as [-> _]. simpl in Hi. injection Hi as <-.
    apply createBoardFromPreset_builtFrom.
  - rewrite run_snoc. set (s := run evs (useBoards initial)) in *.
    split.
    + destruct (step_boards e s) as [[Hc (f & _ & Hl)]|(_ & _ & Hc & Happ)].
      * by rewrite Hc, Hl, length_imap.
      * rewrite Hc, Happ, length_app. simpl. lia.
    + intros i b' Hi.
      destruct (step_lookup_inv e s i b' Hi) as [(b & Hb & Hev)|(-> & -> & _)].
      * by apply (evolves_builtFrom _ _ b), IHb.
      * unfold appended. rewrite IHc. apply createBoardFromPreset_builtFrom.
Qed.

Lemma run_lookup_stable evs : ∀ s i b,
  boards s !! i = Some b →
  ∃ b', boards (run evs s) !! i = Some b' ∧ id b' = id b.
Proof.
  induction evs as [|e evs IH]; intros s i b Hi; [by exists b|].
  simpl. destruct (step_lookup e s i b Hi) as (b1 & Hi1 & Hev).
  destruct (IH _ _ _ Hi1) as (b' & Hb' & Hid).
  exists b'. split; [done|]. rewrite Hid. by apply evolves_id.
Qed.

(** C7. In every feed reached from [useBoards(initial)], the board at
    place [i], whether it was among the first [initial] or appended
    later, has the id [b-i] and the position, labels and solution of catalog
    entry [PRESET_PUZZLES[i mod K]].  A board never moves: whatever runs
    afterwards, the board with the same id is found at the same place, so
    the feed is in append order. *)
Theorem C7_feed_cycles_catalog_in_append_order
    (initial : nat) (evs : list Event) (i : nat) (b : BoardModel) :
  boards (run evs (useBoards initial)) !! i = Some b →
  (∃ p, PRESET_PUZZLES !! (i `mod` length PRESET_PUZZLES) = Some p
        ∧ builtFrom p (boardId i) b)
  ∧ (∀ more, ∃ b', boards (run (evs ++ more) (useBoards initial)) !! i = Some b'
                   ∧ id b' = id b).
Proof.
  intros Hi. split.
  - exists (presetAt i). split; [apply presetAt_lookup|].
    by apply (run_invariant initial evs).
  - intros more. rewrite run_app. by apply run_lookup_stable.
Qed.

Lemma C7_feed_cycles_catalog_in_append_order_witness :
  ∃ p, PRESET_PUZZLES !! (12 `mod` length PRESET_PUZZLES) = Some p
       ∧ builtFrom p (boardId 12)
           (createBoardFromPreset (presetAt 12) (boardId 12)).
Proof.
  apply (C7_feed_cycles_catalog_in_append_order 2
           (concat (replicate 11 [EvAddBoard; EvAppendTimer])) 12).
  vm_compute. reflexivity.
Defined.

Lemma boardId_inj i j : boardId i = boardId j → i = j.
Proof.
  unfold boardId. intros Heq. by apply (inj (String.append _)), (inj pretty) in Heq.
Qed.

(** Ids are pairwise distinct in every feed reached from [useBoards]. *)
Lemma reachable_ids_distinct initial evs i j bi bj :
  boards (run evs (useBoards initial)) !! i = Some bi →
  boards (run evs (useBoards initial)) !! j = Some bj →
  id bj = id bi → j = i.
Proof.
  intros Hi Hj Hid.
  destruct (run_invariant initial evs) as [_ Hb].
  destruct (Hb _ _ Hi) as [Hidi _], (Hb _ _ Hj) as [Hidj _].
  apply boardId_inj. congruence.
Qed.

(** ** Frame: boards the call is not addressed to *)

(** C10. A move played on, or a like or star toggled for, the board with
    id [bid] leaves every board with another id exactly as it was, all
    fields included, at the same place of a feed of the same length. *)
Theorem C10_other_boards_unchanged
    (prev : list BoardModel) (bid : string) (last : LastMove.t)
    (j : nat) (b : BoardModel) :
  prev !! j = Some b →
  id b ≠ bid →
  ((onMovePlayed bid last prev).1 !! j = Some b
   ∧ length (onMovePlayed bid last prev).1 = length prev)
  ∧ (toggleLike bid prev !! j = Some b
     ∧ length (toggleLike bid prev) = length prev)
  ∧ (toggleStar bid prev !! j = Some b
     ∧ length (toggleStar bid prev) = length prev).
Proof.
  intros Hj Hne. split_and!.
  - rewrite onMovePlayed_lookup, Hj. simpl. by rewrite bool_decide_eq_false_2.
  - apply onMovePlayed_length.
  - rewrite toggleLike_lookup, Hj. simpl. by rewrite bool_decide_eq_false_2.
  - unfold toggleLike. by rewrite length_fmap.
  - rewrite toggleStar_lookup, Hj. simpl. by rewrite bool_decide_eq_false_2.
  - unfold toggleStar. by rewrite length_fmap.
Qed.

Lemma C10_other_boards_unchanged_witness :
  ((onMovePlayed "b-0" e2e4 feed2).1 !! 1
     = Some (createBoardFromPreset (presetAt 1) (boardId 1))
   ∧ length (onMovePlayed "b-0" e2e4 feed2).1 = length feed2)
  ∧ (toggleLike "b-0" feed2 !! 1
       = Some (createBoardFromPreset (presetAt 1) (boardId 1))
     ∧ length (toggleLike "b-0" feed2) = length feed2)
  ∧ (toggleStar "b-0" feed2 !! 1
       = Some (createBoardFromPreset (presetAt 1) (boardId 1))
     ∧ length (toggleStar "b-0" feed2) = length feed2).
Proof.
  apply (C10_other_boards_unchanged feed2 "b-0" e2e4 1).
  - reflexivity.
  - vm_compute. discriminate.
Defined.

(** ** The version counter *)

(** C8, as the code has it.  A move played on a board raises its [version]
    by exactly one, whether the move is marked correct or not; toggling
    [liked] or [starred] flips that flag and leaves [version] as it was. *)
Theorem C8_version_bumped_by_moves_only
    (prev : list BoardModel) (i : nat) (b : BoardModel) (last : LastMove.t) :
  prev !! i = Some b →
  (∃ b', (onMovePlayed (id b) last prev).1 !! i = Some b'
         ∧ version b' = version b + 1)
  ∧ (∃ b', toggleLike (id b) prev !! i = Some b'
           ∧ liked b' = negb (liked b) ∧ version b' = version b)
  ∧ (∃ b', toggleStar (id b) prev !! i = Some b'
           ∧ starred b' = negb (starred b) ∧ version b' = version b).
Proof.
  intros Hi. split_and!.
  - exists (play last b). split; [by apply onMovePlayed_target|apply play_version].
  - exists (withLiked (negb (liked b)) b).
    rewrite toggleLike_lookup, Hi. simpl. by rewrite bool_decide_eq_true_2.
  - exists (withStarred (negb (starred b)) b).
    rewrite toggleStar_lookup, Hi. simpl. by rewrite bool_decide_eq_true_2.
Qed.

Lemma C8_version_bumped_by_moves_only_witness :
  (∃ b', (onMovePlayed (id board0) d2d4 feed2).1 !! 0 = Some b'
         ∧ version b' = version board0 + 1)
  ∧ (∃ b', toggleLike (id board0) feed2 !! 0 = Some b'
           ∧ liked b' = negb (liked board0) ∧ version b' = version board0)
  ∧ (∃ b', toggleStar (id board0) feed2 !! 0 = Some b'
           ∧ starred b' = negb (starred board0) ∧ version b' = version board0).
Proof.
  apply (C8_version_bumped_by_moves_only feed2 0 board0 d2d4). reflexivity.
Defined.

(** C8 as stated fails for both reactions: on the first board of the first
    feed, [toggleLike] turns [liked] on and [toggleStar] turns [starred]
    on, and [version] is 0 before and after. *)
Lemma C8_counterexample :
  ∃ b bl bs,
    feed2 !! 0 = Some b
    ∧ toggleLike "b-0" feed2 !! 0 = Some bl
    ∧ toggleStar "b-0" feed2 !! 0 = Some bs
    ∧ liked b = false ∧ liked bl = true
    ∧ starred b = false ∧ starred bs = true
    ∧ ¬ (version b < version bl)
    ∧ ¬ (version b < version bs).
Proof.
  eexists _, _, _. split_and!; try reflexivity; vm_compute; lia.
Qed.

(** ** Auto-advance timers *)

Lemma concat_all_nil {A} (l : list (list A)) :
  (∀ j y, l !! j = Some y → y = []) → concat l = [].
Proof.
  induction l as [|x l IH]; intros Hall; [done|].
  simpl. rewrite (Hall 0 x eq_refl), IH; [done|].
  intros j y Hj. by apply (Hall (S j)).
Qed.

Lemma concat_only {A} (l : list (list A)) : ∀ i x,
  l !! i = Some x →
  (∀ j y, l !! j = Some y → j ≠ i → y = []) →
  concat l = x.
Proof.
  induction l as [|z l IH]; intros i x Hi Hrest; [done|].
  destruct i as [|i]; simpl in *.
  - injection Hi as ->. rewrite concat_all_nil; [by rewrite app_nil_r|].
    intros j y Hj. by apply (Hrest (S j)).
  - rewrite (Hrest 0 z eq_refl); [|done]. simpl.
    apply (IH i); [done|]. intros j y Hj Hne. apply (Hrest (S j)); [done|lia].
Qed.

(** With distinct ids, the timers of a call are those set for the board
    it is addressed to. *)
Lemma onMovePlayed_timers last prev i b :
  prev !! i = Some b →
  (∀ j bj, prev !! j = Some bj → id bj = id b → j = i) →
  (onMovePlayed (id b) last prev).2 = (movePlayedAt (id b) last prev i b).2.
Proof.
  intros Hi Hdistinct. unfold onMovePlayed. cbn [snd].
  apply (concat_only _ i).
  - by rewrite list_lookup_fmap, list_lookup_imap, Hi.
  - intros j y Hj Hne. rewrite list_lookup_fmap, list_lookup_imap in Hj.
    destruct (prev !! j) as [bj|] eqn:Hbj; [|done].
    simpl in Hj. injection Hj as <-.
    rewrite movePlayedAt_other; [done|].
    intros Hid. by apply Hne, (Hdistinct j bj).
Qed.

Lemma movePlayedAt_timers last prev i b :
  (movePlayedAt (id b) last prev i b).2
  = if negb (playedMatches b last)
    then [ {| delay := 350; index := nextIdx prev i |} ]
    else if solvedNow b
    then [ {| delay := 550; index := nextIdx prev i |} ]
    else [].
Proof.
  unfold movePlayedAt. rewrite bool_decide_eq_false_2; [|naive_solver].
  by destruct (playedMatches b last).
Qed.

(** C6, as the code has it.  In a feed with distinct ids, a move played on
    the board at place [i] is marked incorrect or correct, and
    - marked incorrect, it sets one timer, of 350 ms;
    - marked correct with the step count after it at least the length of a
      non-empty solution, it sets one timer, of 550 ms, and the board is
      solved after it: this is the move that completes the solution, and
      also every later move on the solved board;
    - marked correct otherwise, it sets no timer.
    The timer's target is [min(i + 1, length - 1)]. *)
Theorem C6_auto_advance_schedule
    (prev : list BoardModel) (i : nat) (b : BoardModel) (last : LastMove.t) :
  prev !! i = Some b →
  (∀ j bj, prev !! j = Some bj → id bj = id b → j = i) →
  ∃ b', (onMovePlayed (id b) last prev).1 !! i = Some b'
    ∧ (lastMoveCorrect b' = Some false ∨ lastMoveCorrect b' = Some true)
    ∧ (lastMoveCorrect b' = Some false →
       (onMovePlayed (id b) last prev).2
       = [ {| delay := 350; index := Nat.min (i + 1) (length prev - 1) |} ])
    ∧ (lastMoveCorrect b' = Some true →
       0 < length (solution b') ∧ length (solution b') ≤ stepIndex b' →
       solved b' = true
       ∧ (onMovePlayed (id b) last prev).2
         = [ {| delay := 550; index := Nat.min (i + 1) (length prev - 1) |} ])
    ∧ (lastMoveCorrect b' = Some true →
       ¬ (0 < length (solution b') ∧ length (solution b') ≤ stepIndex b') →
       (onMovePlayed (id b) last prev).2 = []).
Proof.
  intros Hi Hdistinct. exists (play last b).
  split; [by apply onMovePlayed_target|].
  rewrite (onMovePlayed_timers last prev i b Hi Hdistinct), movePlayedAt_timers.
  rewrite play_lastMoveCorrect, play_solution, play_stepIndex, play_solved.
  unfold nextIdx.
  destruct (playedMatches b last) eqn:Hm; simpl.
  - split; [by right|]. split; [done|].
    destruct (solvedNow b) eqn:Hnow.
    + split; [done|]. intros _ Hnot. contradict Hnot. by apply solvedNow_spec.
    + split; [|done]. intros _ Hyes. apply solvedNow_spec in Hyes. congruence.
  - split; [by left|]. done.
Qed.

Lemma C6_auto_advance_schedule_witness :
  ∃ b', (onMovePlayed (id board0) d2d4 feed2).1 !! 0 = Some b'
    ∧ (lastMoveCorrect b' = Some false →
       (onMovePlayed (id board0) d2d4 feed2).2
       = [ {| delay := 350; index := Nat.min (0 + 1) (length feed2 - 1) |} ]).
Proof.
  destruct (C6_auto_advance_schedule feed2 0 board0 d2d4)
    as (b' & Hb' & _ & Hwrong & _).
  - reflexivity.
  - intros [|[|j]] bj Hj Hid; [done| |done].
    vm_compute in Hj. injection Hj as <-. vm_compute in Hid. discriminate Hid.
  - exists b'. auto.
Defined.

(** C6 as stated fails on a solved board.  The first board of
    [feed2_solved] is solved already, with [stepIndex] equal to the length
    of its solution.  The reply [e7e5] played on it is marked correct, so
    it is not an incorrect move, and the board was solved before it, so
    the move does not bring it to solved; yet a 550 ms advance is set. *)
Lemma C6_counterexample :
  ∃ b b',
    feed2_solved !! 0 = Some b
    ∧ solved b = true ∧ stepIndex b = length (solution b)
    ∧ (onMovePlayed "b-0" e7e5 feed2_solved).1 !! 0 = Some b'
    ∧ lastMoveCorrect b' = Some true
    ∧ solved b' = true
    ∧ (onMovePlayed "b-0" e7e5 feed2_solved).2 = [ {| delay := 550; index := 1 |} ].
Proof.
  eexists _, _. split_and!; reflexivity.
Qed.

(** ** Onboarding gate *)

Lemma hasCompleted_getItem st :
  hasCompleted (getItem "onboardingCompleted" st) = true
  ↔ available st = true ∧ mem st !! "onboardingCompleted" = Some "1".
Proof.
  unfold getItem. destruct (available st); simpl.
  - destruct (mem st !! "onboardingCompleted") as [v|]; simpl.
    + rewrite bool_decide_eq_true. split; [by intros ->|]. by intros [_ [= ->]].
    + split; [done|]. by intros [_ ?].
  - split; [done|]. by intros [? _].
Qed.

(** C9, as the code has it.  With [FORCE_ONBOARDING_EVERY_TIME] set, as
    [lib/config.ts] sets it, the splash screen routes to onboarding
    whatever the stored flag.  With the switch off it routes to the puzzles
    feed exactly when the read of the flag has settled in time, succeeded
    and returned ["1"], and to onboarding otherwise; a read that fails
    counts as not completed.  The splash screen leaves the store as it is;
    completing the onboarding makes one [setItem] call, writing ["1"] under
    ["onboardingCompleted"], and routes to the puzzles feed, and after a
    successful write a later splash with the switch off routes to the
    feed. *)
Theorem C9_onboarding_gate :
  (∀ inTime st, (Splash inTime st).1 = "/onboarding")
  ∧ (∀ inTime st,
       (SplashWith false inTime st).1 = "/(tabs)/puzzles"
       ↔ inTime = true ∧ available st = true
         ∧ mem st !! "onboardingCompleted" = Some "1")
  ∧ (∀ inTime st,
       (SplashWith false inTime st).1 ≠ "/(tabs)/puzzles" →
       (SplashWith false inTime st).1 = "/onboarding")
  ∧ (∀ force st, available st = false →
       (SplashWith force true st).1 = "/onboarding")
  ∧ (∀ force inTime st, (SplashWith force inTime st).2 = st)
  ∧ (∀ st,
       (completeAndEnter st).1 = "/(tabs)/puzzles"
       ∧ setLog (completeAndEnter st).2
         = setLog st ++ [("onboardingCompleted", "1")]
       ∧ (available st = true →
          (SplashWith false true (completeAndEnter st).2).1 = "/(tabs)/puzzles")).
Proof.
  split_and!.
  - done.
  - intros inTime st. unfold SplashWith, splashPath. cbn [fst].
    destruct inTime.
    + rewrite <- hasCompleted_getItem.
      destruct (hasCompleted _); split; [done|done|done|]. by intros [_ ?].
    + simpl. split; [done|]. by intros [? _].
  - intros inTime st. unfold SplashWith, splashPath. cbn [fst].
    by destruct (hasCompleted _).
  - intros force st Hna. unfold SplashWith, splashPath, getItem. cbn [fst].
    rewrite Hna. by destruct force.
  - done.
  - intros st. unfold completeAndEnter, setItem.
    destruct (available st) eqn:Hav; cbn [fst snd setLog].
    + split_and!; [done|done|]. intros _.
      unfold SplashWith, splashPath, getItem. cbn [fst available mem].
      by rewrite lookup_insert_eq.
    + split_and!; [done|done|done].
Qed.

(** C9 as stated fails under the repository's configuration: the store
    holds ["1"] under ["onboardingCompleted"], the read succeeds in time
    and returns it, and the splash screen still routes to onboarding. *)
Lemma C9_counterexample :
  getItem "onboardingCompleted" completedStore = Resolved (Some "1")
  ∧ hasCompleted (getItem "onboardingCompleted" completedStore) = true
  ∧ (Splash true completedStore).1 = "/onboarding"
  ∧ (Splash true completedStore).1 ≠ "/(tabs)/puzzles".
Proof.
  split_and!; [reflexivity|reflexivity|reflexivity|].
  vm_compute. discriminate.
Qed.

Lemma C9_onboarding_gate_witness :
  (Splash true completedStore).1 = "/onboarding"
  ∧ (SplashWith false true completedStore).1 = "/(tabs)/puzzles"
  ∧ (SplashWith false true (completeAndEnter
        {| mem := ∅; available := true; setLog := [] |}).2).1 = "/(tabs)/puzzles".
Proof.
  destruct C9_onboarding_gate as (Hforced & Hflag & _ & _ & _ & Hwrite).
  split_and!.
  - apply Hforced.
  - apply Hflag. split_and!; reflexivity.
  - apply Hwrite. reflexivity.
Defined.

(** * Further properties of the code *)

(** ** Invariants of a board over the life of the feed *)

(** A property of freshly created boards that every handler keeps holds
    of every board of every feed reached from [useBoards]. *)
Lemma run_board_invariant (Q : BoardModel → Prop) :
  (∀ p bid, Q (createBoardFromPreset p bid)) →
  (∀ b b', evolves b b' → Q b → Q b') →
  ∀ initial evs i b,
    boards (run evs (useBoards initial)) !! i = Some b → Q b.
Proof.
  intros Hnew Hkeep initial evs.
  induction evs as [|e evs IH] using rev_ind; intros i b Hi.
  - simpl in Hi. rewrite list_lookup_fmap in Hi.
    destruct (seq 0 initial !! i) as [j|]; [|done].
    simpl in Hi. injection Hi as <-. apply Hnew.
  - rewrite run_snoc in Hi.
    destruct (step_lookup_inv e _ i b Hi) as [(b0 & Hb0 & Hev)|(_ & -> & _)].
    + by apply (Hkeep b0), (IH i).
    + apply Hnew.
Qed.

Lemma playedMatches_false_in_range last b :
  playedMatches b last = false → stepIndex b < length (solution b).
Proof.
  intros Hm. destruct (decide (stepIndex b < length (solution b))); [done|].
  rewrite playedMatches_beyond in Hm; [done|lia].
Qed.

Lemma evolves_solved_inv b b' :
  evolves b b' →
  (solved b = true ↔ 0 < length (solution b) ∧ length (solution b) ≤ stepIndex b)
  ∧ (solved b = true → lastMoveCorrect b = Some true) →
  (solved b' = true ↔ 0 < length (solution b') ∧ length (solution b') ≤ stepIndex b')
  ∧ (solved b' = true → lastMoveCorrect b' = Some true).
Proof.
  destruct 1 as [|last| |]; [done| |done|done].
  intros [Hiff Hcorrect].
  rewrite play_solved, play_solution, play_stepIndex, play_lastMoveCorrect.
  destruct (playedMatches b last) eqn:Hm; simpl.
  - split; [|done].
    destruct (solvedNow b) eqn:Hnow.
    + apply solvedNow_spec in Hnow. split; [done|lia].
    + assert (¬ (0 < length (solution b) ∧ length (solution b) ≤ stepIndex b + 1))
        as Hnot by (rewrite <- solvedNow_spec; congruence).
      rewrite Hiff. lia.
  - apply playedMatches_false_in_range in Hm.
    split; [done|]. intros Hs. apply Hiff in Hs. lia.
Qed.

(** X1. In every feed reached from [useBoards], a board is solved exactly
    when its step count has reached the length of a non-empty solution,
    and the last move recorded on a solved board is marked correct. *)
Theorem X1_solved_iff_solution_played_through
    (initial : nat) (evs : list Event) (i : nat) (b : BoardModel) :
  boards (run evs (useBoards initial)) !! i = Some b →
  (solved b = true ↔ 0 < length (solution b) ∧ length (solution b) ≤ stepIndex b)
  ∧ (solved b = true → lastMoveCorrect b = Some true).
Proof.
  revert initial evs i b. apply run_board_invariant.
  - intros p bid. simpl. split; [|done]. split; [done|]. lia.
  - apply evolves_solved_inv.
Qed.

Lemma X1_solved_iff_solution_played_through_witness :
  (solved (play e7e5 (play e2e4 board0)) = true
   ↔ 0 < length (solution (play e7e5 (play e2e4 board0)))
     ∧ length (solution (play e7e5 (play e2e4 board0)))
       ≤ stepIndex (play e7e5 (play e2e4 board0)))
  ∧ (solved (play e7e5 (play e2e4 board0)) = true
     → lastMoveCorrect (play e7e5 (play e2e4 board0)) = Some true).
Proof.
  apply (X1_solved_iff_solution_played_through 2
           [EvMovePlayed "b-0" e2e4; EvMovePlayed "b-0" e7e5] 0).
  reflexivity.
Defined.

Lemma evolves_last_move_inv b b' :
  evolves b b' →
  (lastMove b = None ∧ lastMoveCorrect b = None ∧ correctSquares b = [])
  ∨ (∃ m, lastMove b = Some m
          ∧ ((lastMoveCorrect b = Some true ∧ correctSquares b = [LastMove.to m])
             ∨ (lastMoveCorrect b = Some false ∧ correctSquares b = []))) →
  (lastMove b' = None ∧ lastMoveCorrect b' = None ∧ correctSquares b' = [])
  ∨ (∃ m, lastMove b' = Some m
          ∧ ((lastMoveCorrect b' = Some true ∧ correctSquares b' = [LastMove.to m])
             ∨ (lastMoveCorrect b' = Some false ∧ correctSquares b' = []))).
Proof.
  destruct 1 as [|last| |]; [done| |done|done].
  intros _. right. exists last.
  destruct (playedMatches b last) eqn:Hm;
    [rewrite play_correct by done | rewrite play_incorrect by done]; simpl; auto.
Qed.

(** X2. In every feed reached from [useBoards], [lastMove] and
    [lastMoveCorrect] of a board are both unset or both set, and
    [correctSquares] is the one-element list of the last move's
    destination when that move was marked correct, and empty otherwise. *)
Theorem X2_last_move_fields_set_together
    (initial : nat) (evs : list Event) (i : nat) (b : BoardModel) :
  boards (run evs (useBoards initial)) !! i = Some b →
  (lastMove b = None ∧ lastMoveCorrect b = None ∧ correctSquares b = [])
  ∨ (∃ m, lastMove b = Some m
          ∧ ((lastMoveCorrect b = Some true ∧ correctSquares b = [LastMove.to m])
             ∨ (lastMoveCorrect b = Some false ∧ correctSquares b = []))).
Proof.
  revert initial evs i b. apply run_board_invariant.
  - intros p bid. by left.
  - apply evolves_last_move_inv.
Qed.

Lemma X2_last_move_fields_set_together_witness :
  (lastMove (play d2d4 board0) = None
   ∧ lastMoveCorrect (play d2d4 board0) = None
   ∧ correctSquares (play d2d4 board0) = [])
  ∨ (∃ m, lastMove (play d2d4 board0) = Some m
          ∧ ((lastMoveCorrect (play d2d4 board0) = Some true
              ∧ correctSquares (play d2d4 board0) = [LastMove.to m])
             ∨ (lastMoveCorrect (play d2d4 board0) = Some false
                ∧ correctSquares (play d2d4 board0) = []))).
Proof.
  apply (X2_last_move_fields_set_together 2 [EvMovePlayed "b-0" d2d4] 0).
  reflexivity.
Defined.

Lemma evolves_version_inv b b' :
  evolves b b' →
  stepIndex b ≤ version b ∧ (version b = 0 ↔ lastMove b = None) →
  stepIndex b' ≤ version b' ∧ (version b' = 0 ↔ lastMove b' = None).
Proof.
  destruct 1 as [|last| |]; [done| |done|done].
  intros [Hle _].
  rewrite play_stepIndex, play_version, play_lastMove.
  split; [destruct (playedMatches b last); lia|].
  split; [lia|done].
Qed.

(** X3. In every feed reached from [useBoards], the version of a board is
    at least its step count (each correct step was a move, and each move
    raised the version), and the version is 0 exactly when no move has
    been played on the board yet. *)
Theorem X3_version_counts_moves
    (initial : nat) (evs : list Event) (i : nat) (b : BoardModel) :
  boards (run evs (useBoards initial)) !! i = Some b →
  stepIndex b ≤ version b ∧ (version b = 0 ↔ lastMove b = None).
Proof.
  revert initial evs i b. apply run_board_invariant.
  - intros p bid. simpl. split; [lia|done].
  - apply evolves_version_inv.
Qed.

Lemma X3_version_counts_moves_witness :
  stepIndex (play e2e4 (play d2d4 board0)) ≤ version (play e2e4 (play d2d4 board0))
  ∧ (version (play e2e4 (play d2d4 board0)) = 0
     ↔ lastMove (play e2e4 (play d2d4 board0)) = None).
Proof.
  apply (X3_version_counts_moves 2
           [EvMovePlayed "b-0" d2d4; EvMovePlayed "b-0" e2e4] 0).
  reflexivity.
Defined.

(** ** Calls addressed to an id the feed does not hold *)

Lemma onMovePlayed_unknown bid last prev :
  (∀ b, b ∈ prev → id b ≠ bid) → onMovePlayed bid last prev = (prev, []).
Proof.
  intros Hnone. unfold onMovePlayed. f_equal.
  - apply list_eq. intros i.
    rewrite list_lookup_fmap, list_lookup_imap.
    destruct (prev !! i) as [b|] eqn:Hi; [|done]. simpl.
    rewrite movePlayedAt_other; [done|].
    by apply Hnone, (list_elem_of_lookup_2 _ i).
  - apply concat_all_nil. intros j y Hj.
    rewrite list_lookup_fmap, list_lookup_imap in Hj.
    destruct (prev !! j) as [b|] eqn:Hb; [|done].
    simpl in Hj. injection Hj as <-.
    rewrite movePlayedAt_other; [done|].
    by apply Hnone, (list_elem_of_lookup_2 _ j).
Qed.

(** X4. A call addressed to an id that no board of the feed carries does
    nothing: [onMovePlayed] returns the feed as it was and sets no timer,
    and [toggleLike] and [toggleStar] return the feed as it was.  The
    empty feed is a case of this. *)
Theorem X4_unknown_id_changes_nothing
    (prev : list BoardModel) (bid : string) (last : LastMove.t) :
  (∀ b, b ∈ prev → id b ≠ bid) →
  onMovePlayed bid last prev = (prev, [])
  ∧ toggleLike bid prev = prev
  ∧ toggleStar bid prev = prev.
Proof.
  intros Hnone. split; [by apply onMovePlayed_unknown|].
  split; apply list_eq; intros i.
  - rewrite toggleLike_lookup. destruct (prev !! i) as [b|] eqn:Hi; [|done].
    simpl. rewrite bool_decide_eq_false_2; [done|].
    by apply Hnone, (list_elem_of_lookup_2 _ i).
  - rewrite toggleStar_lookup. destruct (prev !! i) as [b|] eqn:Hi; [|done].
    simpl. rewrite bool_decide_eq_false_2; [done|].
    by apply Hnone, (list_elem_of_lookup_2 _ i).
Qed.

Lemma X4_unknown_id_changes_nothing_witness :
  onMovePlayed "b-7" e2e4 feed2 = (feed2, [])
  ∧ toggleLike "b-7" feed2 = feed2
  ∧ toggleStar "b-7" feed2 = feed2.
Proof.
  apply (X4_unknown_id_changes_nothing feed2 "b-7" e2e4).
  intros b Hb. apply list_elem_of_lookup_1 in Hb as [[|[|i]] Hi];
    vm_compute in Hi; [| |done]; injection Hi as <-; vm_compute; discriminate.
Defined.

(** ** Scroll timers *)

Lemma movePlayedAt_timer_in_range bid last prev i b t :
  prev !! i = Some b →
  t ∈ (movePlayedAt bid last prev i b).2 →
  index t < length prev ∧ (delay t = 350 ∨ delay t = 550).
Proof.
  intros Hi Ht. apply lookup_lt_Some in Hi.
  assert (nextIdx prev i < length prev) as Hidx by (unfold nextIdx; lia).
  unfold movePlayedAt in Ht.
  destruct (bool_decide (id b ≠ bid)); [by apply elem_of_nil in Ht|].
  destruct (negb (playedMatches b last)); simpl in Ht.
  - apply list_elem_of_singleton in Ht as ->. simpl. auto.
  - destruct (solvedNow b); [|by apply elem_of_nil in Ht].
    apply list_elem_of_singleton in Ht as ->. simpl. auto.
Qed.

Lemma onMovePlayed_timer_origin bid last prev t :
  t ∈ (onMovePlayed bid last prev).2 →
  ∃ i b, prev !! i = Some b ∧ t ∈ (movePlayedAt bid last prev i b).2.
Proof.
  unfold onMovePlayed. cbn [snd]. intros Ht.
  apply list_elem_of_In, in_concat in Ht as (l & Hl & Ht).
  apply list_elem_of_In, list_elem_of_fmap in Hl as (y & -> & Hy).
  apply elem_of_lookup_imap_1 in Hy as (i & b & -> & Hi).
  exists i, b. split; [done|]. by apply list_elem_of_In.
Qed.

Lemma step_length e s : length (boards s) ≤ length (boards (step e s)).
Proof.
  destruct (step_boards e s) as [[_ (f & _ & ->)]|(_ & _ & _ & ->)].
  - by rewrite length_imap.
  - rewrite length_app. lia.
Qed.

Lemma step_scrollTimers e s t :
  t ∈ scrollTimers (step e s) →
  t ∈ scrollTimers s
  ∨ ∃ bid last, e = EvMovePlayed bid last
                ∧ t ∈ (onMovePlayed bid last (boards s)).2.
Proof.
  destruct e as [| |bid last|bid|bid|k|k]; simpl; auto.
  - unfold addBoard. destruct (loadingRef s); auto.
  - unfold appendTimerFired. destruct (appendTimers s); auto.
  - rewrite elem_of_app. intros [Ht|Ht]; [by left|]. right. by exists bid, last.
Qed.

(** X5. In every feed reached from [useBoards], every scroll timer that
    has been set, however long ago, targets the place of a board that
    exists, and waits 350 or 550 ms. *)
Theorem X5_scroll_timers_target_existing_boards
    (initial : nat) (evs : list Event) (t : ScrollTimer) :
  t ∈ scrollTimers (run evs (useBoards initial)) →
  index t < length (boards (run evs (useBoards initial)))
  ∧ (delay t = 350 ∨ delay t = 550).
Proof.
  induction evs as [|e evs IH] using rev_ind; intros Ht.
  - by apply elem_of_nil in Ht.
  - rewrite run_snoc in *. set (s := run evs (useBoards initial)) in *.
    pose proof (step_length e s) as Hlen.
    apply step_scrollTimers in Ht as [Ht|(bid & last & -> & Ht)].
    + destruct (IH Ht) as [Hidx Hdelay]. split; [lia|done].
    + apply onMovePlayed_timer_origin in Ht as (i & b & Hi & Ht).
      destruct (movePlayedAt_timer_in_range _ _ _ _ _ _ Hi Ht). split; [lia|done].
Qed.

Lemma X5_scroll_timers_target_existing_boards_witness :
  index {| delay := 350; index := 1 |}
    < length (boards (run [EvMovePlayed "b-1" e2e4] (useBoards 2)))
  ∧ (delay {| delay := 350; index := 1 |} = 350
     ∨ delay {| delay := 350; index := 1 |} = 550).
Proof.
  apply (X5_scroll_timers_target_existing_boards 2 [EvMovePlayed "b-1" e2e4]).
  vm_compute. apply list_elem_of_here.
Defined.

(** X6. In every feed reached from [useBoards], one [onMovePlayed] call
    sets at most one scroll timer, whatever id and move it is given. *)
Theorem X6_at_most_one_timer_per_move
    (initial : nat) (evs : list Event) (bid : string) (last : LastMove.t) :
  length (onMovePlayed bid last (boards (run evs (useBoards initial)))).2 ≤ 1.
Proof.
  set (prev := boards (run evs (useBoards initial))).
  destruct (decide (Exists (λ b, id b = bid) prev)) as [Hex|Hnone].
  - apply Exists_exists in Hex as (b & Hb & <-).
    apply list_elem_of_lookup_1 in Hb as [i Hi].
    rewrite (onMovePlayed_timers last prev i b Hi).
    + rewrite movePlayedAt_timers.
      destruct (negb _); [simpl; lia|]. destruct (solvedNow b); simpl; lia.
    + intros j bj Hj Hid. by apply (reachable_ids_distinct initial evs i j b bj).
  - rewrite onMovePlayed_unknown; [simpl; lia|].
    intros b Hb Hid. apply Hnone, Exists_exists. by exists b.
Qed.

(** ** Reactions *)

(** X7. Toggling twice is the identity on the whole feed: two
    [toggleLike] calls for the same id give back the feed they started
    from, field for field, and so do two [toggleStar] calls and two taps
    addressed to the same place. *)
Theorem X7_toggle_twice_restores_feed (prev : list BoardModel) (bid : string) (k : nat) :
  toggleLike bid (toggleLike bid prev) = prev
  ∧ toggleStar bid (toggleStar bid prev) = prev
  ∧ onTapLike k (onTapLike k prev) = prev
  ∧ onTapStar k (onTapStar k prev) = prev.
Proof.
  split_and!; apply list_eq; intros i.
  - rewrite !toggleLike_lookup. destruct (prev !! i) as [b|]; [|done]. simpl.
    f_equal. destruct (decide (id b = bid)) as [Hid|Hid].
    + repeat (rewrite (bool_decide_eq_true_2 (id b = bid)) by done; simpl).
      destruct b; simpl. by rewrite negb_involutive.
    + by repeat (rewrite (bool_decide_eq_false_2 (id b = bid)) by done; simpl).
  - rewrite !toggleStar_lookup. destruct (prev !! i) as [b|]; [|done]. simpl.
    f_equal. destruct (decide (id b = bid)) as [Hid|Hid].
    + repeat (rewrite (bool_decide_eq_true_2 (id b = bid)) by done; simpl).
      destruct b; simpl. by rewrite negb_involutive.
    + by repeat (rewrite (bool_decide_eq_false_2 (id b = bid)) by done; simpl).
  - unfold onTapLike. rewrite !list_lookup_imap.
    destruct (prev !! i) as [b|]; [|done]. simpl. f_equal.
    destruct (decide (i = k)) as [Hk|Hk].
    + rewrite !bool_decide_eq_true_2 by done. destruct b; simpl.
      by rewrite negb_involutive.
    + by rewrite !bool_decide_eq_false_2.
  - unfold onTapStar. rewrite !list_lookup_imap.
    destruct (prev !! i) as [b|]; [|done]. simpl. f_equal.
    destruct (decide (i = k)) as [Hk|Hk].
    + rewrite !bool_decide_eq_true_2 by done. destruct b; simpl.
      by rewrite negb_involutive.
    + by rewrite !bool_decide_eq_false_2.
Qed.

Lemma movePlayedAt_withLiked bid last prev prev' i v b :
  length prev' = length prev →
  movePlayedAt bid last prev' i (withLiked v b)
  = (withLiked v (movePlayedAt bid last prev i b).1,
     (movePlayedAt bid last prev i b).2).
Proof.
  intros Hlen. unfold movePlayedAt, nextIdx, playedMatches, solvedNow.
  simpl. rewrite Hlen.
  destruct (bool_decide (id b ≠ bid)); [done|].
  destruct (solution b !! stepIndex b) as [e|]; simpl.
  - destruct (bool_decide (MoveSpec.from e = LastMove.from last)
              && bool_decide (MoveSpec.to e = LastMove.to last)); [|done].
    simpl. by destruct (_ && _).
  - by destruct (_ && _).
Qed.

Lemma movePlayedAt_withStarred bid last prev prev' i v b :
  length prev' = length prev →
  movePlayedAt bid last prev' i (withStarred v b)
  = (withStarred v (movePlayedAt bid last prev i b).1,
     (movePlayedAt bid last prev i b).2).
Proof.
  intros Hlen. unfold movePlayedAt, nextIdx, playedMatches, solvedNow.
  simpl. rewrite Hlen.
  destruct (bool_decide (id b ≠ bid)); [done|].
  destruct (solution b !! stepIndex b) as [e|]; simpl.
  - destruct (bool_decide (MoveSpec.from e = LastMove.from last)
              && bool_decide (MoveSpec.to e = LastMove.to last)); [|done].
    simpl. by destruct (_ && _).
  - by destruct (_ && _).
Qed.

Lemma movePlayedAt_same_length bid last prev prev' i b :
  length prev' = length prev →
  movePlayedAt bid last prev' i b = movePlayedAt bid last prev i b.
Proof. intros Hlen. unfold movePlayedAt, nextIdx. by rewrite Hlen. Qed.

Lemma movePlayedAt_id bid last prev i b :
  id (movePlayedAt bid last prev i b).1 = id b.
Proof. rewrite movePlayedAt_board. case_bool_decide; [apply play_id|done]. Qed.

Lemma movePlayedAt_reactions bid last prev i b :
  liked (movePlayedAt bid last prev i b).1 = liked b
  ∧ starred (movePlayedAt bid last prev i b).1 = starred b.
Proof.
  rewrite movePlayedAt_board. case_bool_decide; [|done].
  by destruct (play_static last b) as (_ & -> & -> & _).
Qed.

(** X8. Reactions and moves do not interfere.  Liking and starring
    commute, for any two ids; and liking (or starring) a board before a
    move is played gives the same feed and the same timers as playing the
    move first and reacting afterwards. *)
Theorem X8_reactions_commute_with_moves
    (prev : list BoardModel) (a c bid : string) (last : LastMove.t) :
  toggleLike a (toggleStar c prev) = toggleStar c (toggleLike a prev)
  ∧ onMovePlayed bid last (toggleLike a prev)
    = (toggleLike a (onMovePlayed bid last prev).1, (onMovePlayed bid last prev).2)
  ∧ onMovePlayed bid last (toggleStar a prev)
    = (toggleStar a (onMovePlayed bid last prev).1, (onMovePlayed bid last prev).2).
Proof.
  split_and!.
  - apply list_eq. intros i.
    rewrite toggleLike_lookup, !toggleStar_lookup, toggleLike_lookup.
    destruct (prev !! i) as [b|]; [|done]. simpl. f_equal.
    destruct (decide (id b = a)) as [Ha|Ha], (decide (id b = c)) as [Hc|Hc];
      rewrite ?(bool_decide_eq_true_2 (id b = a)), ?(bool_decide_eq_false_2 (id b = a)),
        ?(bool_decide_eq_true_2 (id b = c)), ?(bool_decide_eq_false_2 (id b = c)) by done;
      simpl;
      rewrite ?(bool_decide_eq_true_2 (id b = a)), ?(bool_decide_eq_false_2 (id b = a)),
        ?(bool_decide_eq_true_2 (id b = c)), ?(bool_decide_eq_false_2 (id b = c)) by done;
      done.
  - assert (length (toggleLike a prev) = length prev) as Hlen
      by (unfold toggleLike; by rewrite length_fmap).
    unfold onMovePlayed. cbn [fst snd]. f_equal.
    + apply list_eq. intros i.
      rewrite toggleLike_lookup, !list_lookup_fmap, !list_lookup_imap,
        toggleLike_lookup.
      destruct (prev !! i) as [b|]; [|done]. simpl. f_equal.
      rewrite movePlayedAt_id.
      destruct (movePlayedAt_reactions bid last prev i b) as [-> _].
      case_bool_decide; [by rewrite (movePlayedAt_withLiked _ _ prev)|].
      by rewrite (movePlayedAt_same_length _ _ prev).
    + f_equal. apply list_eq. intros i.
      rewrite !list_lookup_fmap, !list_lookup_imap, toggleLike_lookup.
      destruct (prev !! i) as [b|]; [|done]. simpl. f_equal.
      case_bool_decide; [by rewrite (movePlayedAt_withLiked _ _ prev)|].
      by rewrite (movePlayedAt_same_length _ _ prev).
  - assert (length (toggleStar a prev) = length prev) as Hlen
      by (unfold toggleStar; by rewrite length_fmap).
    unfold onMovePlayed. cbn [fst snd]. f_equal.
    + apply list_eq. intros i.
      rewrite toggleStar_lookup, !list_lookup_fmap, !list_lookup_imap,
        toggleStar_lookup.
      destruct (prev !! i) as [b|]; [|done]. simpl. f_equal.
      rewrite movePlayedAt_id.
      destruct (movePlayedAt_reactions bid last prev i b) as [_ ->].
      case_bool_decide; [by rewrite (movePlayedAt_withStarred _ _ prev)|].
      by rewrite (movePlayedAt_same_length _ _ prev).
    + f_equal. apply list_eq. intros i.
      rewrite !list_lookup_fmap, !list_lookup_imap, toggleStar_lookup.
      destruct (prev !! i) as [b|]; [|done]. simpl. f_equal.
      case_bool_decide; [by rewrite (movePlayedAt_withStarred _ _ prev)|].
      by rewrite (movePlayedAt_same_length _ _ prev).
Qed.

(** X9. In every feed reached from [useBoards], a like or star addressed
    by place (the double tap) does exactly what the same reaction
    addressed by the id of the board at that place does (the heart and
    star buttons); addressed to a place beyond the feed it changes
    nothing. *)
Theorem X9_tap_by_place_is_toggle_by_id
    (initial : nat) (evs : list Event) (k : nat) :
  let prev := boards (run evs (useBoards initial)) in
  match prev !! k with
  | Some b => onTapLike k prev = toggleLike (id b) prev
              ∧ onTapStar k prev = toggleStar (id b) prev
  | None => onTapLike k prev = prev ∧ onTapStar k prev = prev
  end.
Proof.
  intros prev. destruct (prev !! k) as [b|] eqn:Hk.
  - assert (∀ j bj, prev !! j = Some bj →
              bool_decide (j = k) = bool_decide (id bj = id b)) as Hsame.
    { intros j bj Hj. destruct (decide (j = k)) as [->|Hne].
      - rewrite Hk in Hj. injection Hj as ->. by rewrite !bool_decide_eq_true_2.
      - rewrite !bool_decide_eq_false_2; [done| |done].
        intros Hid. by apply Hne, (reachable_ids_distinct initial evs k j b bj). }
    split; apply list_eq; intros j.
    + unfold onTapLike. rewrite list_lookup_imap, toggleLike_lookup.
      destruct (prev !! j) as [bj|] eqn:Hj; [|done]. simpl.
      by rewrite (Hsame j bj).
    + unfold onTapStar. rewrite list_lookup_imap, toggleStar_lookup.
      destruct (prev !! j) as [bj|] eqn:Hj; [|done]. simpl.
      by rewrite (Hsame j bj).
  - apply lookup_ge_None in Hk.
    split; apply list_eq; intros j.
    + unfold onTapLike. rewrite list_lookup_imap.
      destruct (prev !! j) as [bj|] eqn:Hj; [|done]. simpl.
      apply lookup_lt_Some in Hj. rewrite bool_decide_eq_false_2; [done|lia].
    + unfold onTapStar. rewrite list_lookup_imap.
      destruct (prev !! j) as [bj|] eqn:Hj; [|done]. simpl.
      apply lookup_lt_Some in Hj. rewrite bool_decide_eq_false_2; [done|lia].
Qed.

(** ** The feed controller *)

Lemma step_single_flight e s :
  appendTimers s ≤ 1 ∧ (loadingRef s = true ↔ appendTimers s = 1) →
  appendTimers (step e s) ≤ 1
  ∧ (loadingRef (step e s) = true ↔ appendTimers (step e s) = 1).
Proof.
  intros [Hle Hiff]. destruct e; simpl; try done.
  - unfold addBoard. destruct (loadingRef s) eqn:Hl; [simpl; rewrite Hl; by split|]. simpl.
    assert (appendTimers s ≠ 1) by (intros H1; apply Hiff in H1; done).
    split; [lia|]. split; [lia|done].
  - unfold appendTimerFired. destruct (appendTimers s) as [|n] eqn:Hn.
    + rewrite Hn. by split.
    + simpl. split; [lia|]. split; [done|lia].
Qed.

Lemma run_single_flight initial evs :
  appendTimers (run evs (useBoards initial)) ≤ 1
  ∧ (loadingRef (run evs (useBoards initial)) = true
     ↔ appendTimers (run evs (useBoards initial)) = 1).
Proof.
  induction evs as [|e evs IH] using rev_ind.
  - simpl. split; [lia|]. split; [done|lia].
  - rewrite run_snoc. by apply step_single_flight.
Qed.

(** X10. Appends are single-flight: in every state reached from
    [useBoards] at most one append timer is pending, and [loadingRef] is
    raised exactly while one is. *)
Theorem X10_append_is_single_flight (initial : nat) (evs : list Event) :
  appendTimers (run evs (useBoards initial)) ≤ 1
  ∧ (loadingRef (run evs (useBoards initial)) = true
     ↔ appendTimers (run evs (useBoards initial)) = 1).
Proof. apply run_single_flight. Qed.

Lemma run_growth evs : ∀ s,
  length (boards s) ≤ length (boards (run evs s))
  ∧ length (boards (run evs s)) + appendTimers (run evs s)
    ≤ length (boards s) + appendTimers s + addBoardCalls evs.
Proof.
  induction evs as [|e evs IH]; intros s; [simpl; lia|].
  destruct (IH (step e s)) as [IHlo IHhi].
  pose proof (step_length e s) as Hlen.
  change (run (e :: evs) s) with (run evs (step e s)).
  split; [lia|].
  assert (length (boards (step e s)) + appendTimers (step e s) + addBoardCalls evs
          ≤ length (boards s) + appendTimers s + addBoardCalls (e :: evs)); [|lia].
  destruct e as [| |bid last|bid|bid|k|k]; simpl.
  - unfold addBoard. destruct (loadingRef s); simpl; lia.
  - unfold appendTimerFired. destruct (appendTimers s) as [|n] eqn:Hn.
    + rewrite Hn. lia.
    + simpl. rewrite length_app. simpl. lia.
  - rewrite length_fmap, length_imap. lia.
  - unfold toggleLike. rewrite length_fmap. lia.
  - unfold toggleStar. rewrite length_fmap. lia.
  - unfold onTapLike. rewrite length_imap. lia.
  - unfold onTapStar. rewrite length_imap. lia.
Qed.

(** X11. The feed never shrinks, and it grows by at most one board per
    [addBoard] call: after any events, the number of boards is at least
    the initial number and, together with the append still pending, at
    most the initial number plus the number of [addBoard] calls. *)
Theorem X11_feed_grows_by_at_most_the_addBoard_calls
    (initial : nat) (evs : list Event) :
  initial ≤ length (boards (run evs (useBoards initial)))
  ∧ length (boards (run evs (useBoards initial)))
    + appendTimers (run evs (useBoards initial))
    ≤ initial + addBoardCalls evs.
Proof.
  destruct (run_growth evs (useBoards initial)) as [Hlo Hhi].
  simpl in Hlo, Hhi. rewrite length_fmap, length_seq in Hlo, Hhi.
  split; [done|lia].
Qed.

(** X12. Lookahead.  In a state reached from [useBoards] with no append
    in flight, [ensurePreload] called with fewer than 3 boards from the
    viewed index on requests one append, and when its timer fires the
    feed has gained exactly one board at its end: the next id, built from
    the next catalog entry.  With 3 or more boards from the viewed index
    on, or while an append is in flight, [ensurePreload] changes nothing. *)
Theorem X12_lookahead_appends_next_catalog_entry
    (initial : nat) (evs : list Event) (boardsLength idx : nat) :
  let s := run evs (useBoards initial) in
  (loadingRef s = false → boardsLength - idx < 3 →
   boards (appendTimerFired (ensurePreload boardsLength idx s))
   = boards s ++ [createBoardFromPreset (presetAt (length (boards s)))
                    (boardId (length (boards s)))]
   ∧ loadingRef (appendTimerFired (ensurePreload boardsLength idx s)) = false)
  ∧ (3 ≤ boardsLength - idx → ensurePreload boardsLength idx s = s)
  ∧ (loadingRef s = true → ensurePreload boardsLength idx s = s).
Proof.
  intros s. split_and!.
  - intros Hidle Hnear.
    destruct (run_single_flight initial evs) as [Hle Hiff].
    destruct (run_invariant initial evs) as [Hcursor _].
    fold s in Hle, Hiff, Hcursor.
    assert (appendTimers s = 0) as Hnone.
    { destruct (appendTimers s) as [|[|n]] eqn:Hn; [done| |lia].
      assert (loadingRef s = true) by by apply Hiff. congruence. }
    unfold ensurePreload. apply Nat.ltb_lt in Hnear. rewrite Hnear.
    unfold addBoard. rewrite Hidle.
    unfold appendTimerFired. simpl. rewrite Hnone. simpl.
    by rewrite Hcursor.
  - intros Hfar. unfold ensurePreload.
    by rewrite (proj2 (Nat.ltb_ge _ _) Hfar).
  - intros Hbusy. unfold ensurePreload, addBoard. rewrite Hbusy.
    by destruct (_ <? _).
Qed.

Lemma X12_lookahead_appends_next_catalog_entry_witness :
  boards (appendTimerFired (ensurePreload 2 0 (run [] (useBoards 2))))
  = boards (run [] (useBoards 2))
    ++ [createBoardFromPreset (presetAt 2) (boardId 2)]
  ∧ loadingRef (appendTimerFired (ensurePreload 2 0 (run [] (useBoards 2)))) = false.
Proof.
  apply (X12_lookahead_appends_next_catalog_entry 2 [] 2 0).
  - reflexivity.
  - vm_compute. lia.
Defined.

(** ** The squares of the board *)

Lemma toSquare_unfold r c :
  toSquare r c = String (ascii_of_nat (97 + c)) (pretty (8 - Z.of_nat r)%Z).
Proof. done. Qed.

(** X13. On the board ([r], [c] below 8) [toSquare] yields the file
    letter of column [c] followed by the digit of rank [8 - r], and the
    64 squares get 64 different names. *)
Theorem X13_toSquare_names_the_64_squares (r c r' c' : nat) :
  r < 8 → c < 8 → r' < 8 → c' < 8 →
  toSquare r c
  = String (ascii_of_nat (97 + c)) (String (ascii_of_nat (56 - r)) "")
  ∧ (toSquare r c = toSquare r' c' → r = r' ∧ c = c').
Proof.
  intros Hr Hc Hr' Hc'. split.
  - rewrite toSquare_unfold. f_equal.
    do 8 (destruct r as [|r]; [by vm_compute|]). lia.
  - rewrite !toSquare_unfold. intros [= Hfile Hrank].
    split.
    + apply (inj pretty) in Hrank. lia.
    + apply (f_equal nat_of_ascii) in Hfile.
      rewrite !nat_ascii_embedding in Hfile by lia. lia.
Qed.

Lemma X13_toSquare_names_the_64_squares_witness :
  toSquare 6 4 = "e2" ∧ (toSquare 6 4 = toSquare 4 4 → 6 = 4 ∧ 4 = 4).
Proof.
  apply (X13_toSquare_names_the_64_squares 6 4 4 4); lia.
Defined.

Lemma isDark_next n m :
  ((n + m + 1) `mod` 2 =? 0) = negb ((n + m) `mod` 2 =? 0).
Proof.
  pose proof (Nat.mod_upper_bound (n + m) 2).
  pose proof (Nat.div_mod_eq (n + m) 2).
  pose proof (Nat.mod_upper_bound (n + m + 1) 2).
  pose proof (Nat.div_mod_eq (n + m + 1) 2).
  destruct (Nat.eqb_spec ((n + m + 1) `mod` 2) 0),
           (Nat.eqb_spec ((n + m) `mod` 2) 0); simpl; lia.
Qed.

(** X14. The squares are coloured as a chequerboard: two squares that
    share an edge have different backgrounds, and two that touch
    diagonally have the same. *)
Theorem X14_backgrounds_alternate (r c : nat) :
  squareBackground r (c + 1) ≠ squareBackground r c
  ∧ squareBackground (r + 1) c ≠ squareBackground r c
  ∧ squareBackground (r + 1) (c + 1) = squareBackground r c.
Proof.
  unfold squareBackground, isDark.
  replace (r + (c + 1)) with (r + c + 1) by lia.
  replace (r + 1 + c) with (r + c + 1) by lia.
  replace (r + 1 + (c + 1)) with (r + (c + 1) + 1) by lia.
  rewrite (isDark_next r (c + 1)).
  replace (r + (c + 1)) with (r + c + 1) by lia.
  rewrite isDark_next.
  destruct (_ =? 0); simpl; split_and!; done.
Qed.

(** ** Pressing squares *)

Section Pressing.
Context {P : Type} `{Rules P}.

Lemma onSquarePress_selection r c (v : BoardView P) :
  match selected v with
  | None => moves v = []
  | Some sq => ownPiece (position v) sq = true
               ∧ moves v = legalFrom (position v) sq
  end →
  match selected (onSquarePress r c v).1 with
  | None => moves (onSquarePress r c v).1 = []
  | Some sq => ownPiece (position (onSquarePress r c v).1) sq = true
               ∧ moves (onSquarePress r c v).1
                 = legalFrom (position (onSquarePress r c v).1) sq
  end.
Proof.
  intros Hinv. unfold onSquarePress.
  destruct (selected v) as [sel|] eqn:Hsel.
  - case_bool_decide; [done|].
    destruct (moveForTarget (moves v) (toSquare r c)) as [mv|].
    + destruct (chess_move _ _ _ _); simpl; [done|done|by rewrite Hsel].
    + destruct (ownPiece (position v) (toSquare r c)) eqn:Hown; simpl; done.
  - destruct (ownPiece (position v) (toSquare r c)) eqn:Hown; simpl; [done|].
    by rewrite Hsel.
Qed.

Lemma onSquarePress_budget r c (v : BoardView P) :
  2 * length (option_list (onSquarePress r c v).2)
  + (match selected (onSquarePress r c v).1 with Some _ => 1 | None => 0 end)
  ≤ (match selected v with Some _ => 1 | None => 0 end) + 1.
Proof.
  unfold onSquarePress.
  destruct (selected v) as [sel|] eqn:Hsel.
  - case_bool_decide; [simpl; lia|].
    destruct (moveForTarget (moves v) (toSquare r c)) as [mv|].
    + destruct (chess_move _ _ _ _); simpl; [lia|lia|rewrite Hsel; lia].
    + destruct (ownPiece (position v) (toSquare r c)); simpl; lia.
  - destruct (ownPiece (position v) (toSquare r c)); simpl; [lia|].
    rewrite Hsel. lia.
Qed.

Lemma pressAll_cons r c rest (v : BoardView P) :
  pressAll ((r, c) :: rest) v
  = ((pressAll rest (onSquarePress r c v).1).1,
     option_list (onSquarePress r c v).2
     ++ (pressAll rest (onSquarePress r c v).1).2).
Proof.
  simpl. destruct (onSquarePress r c v) as [v1 report]. simpl.
  by destruct (pressAll rest v1).
Qed.

End Pressing.

(** X15. Whatever the rules engine and whatever squares are pressed, a
    board that starts with nothing selected keeps its selection and its
    highlighted targets in step: with nothing selected no target is
    listed, and with a square selected that square holds a piece of the
    side to move and the targets are the engine's legal moves from it in
    the current position (none if the engine call failed). *)
Theorem X15_selection_and_targets_agree
    {P : Type} `{Rules P} (presses : list (nat * nat)) (pos : P) :
  let v := (pressAll presses {| position := pos; selected := None; moves := [] |}).1 in
  match selected v with
  | None => moves v = []
  | Some sq => ownPiece (position v) sq = true
               ∧ moves v = legalFrom (position v) sq
  end.
Proof.
  assert (∀ v0 : BoardView P,
            match selected v0 with
            | None => moves v0 = []
            | Some sq => ownPiece (position v0) sq = true
                         ∧ moves v0 = legalFrom (position v0) sq
            end →
            match selected (pressAll presses v0).1 with
            | None => moves (pressAll presses v0).1 = []
            | Some sq => ownPiece (position (pressAll presses v0).1) sq = true
                         ∧ moves (pressAll presses v0).1
                           = legalFrom (position (pressAll presses v0).1) sq
            end) as Hall.
  { induction presses as [|[r c] rest IH]; intros v0 Hv0; [done|].
    rewrite pressAll_cons. cbn [fst].
    by apply IH, onSquarePress_selection. }
  by apply Hall.
Qed.

(** X16. One press reports a move to [onMovePlayed] only when a square
    was selected, the pressed square is the destination of a listed
    target, and the engine made the move asked for with promotion to a
    queen; the report carries the from/to and the capture flag of the
    move the engine returned, and afterwards nothing is selected.  A
    press that reports nothing leaves the position as it was. *)
Theorem X16_report_only_after_an_applied_move
    {P : Type} `{Rules P} (r c : nat) (v : BoardView P) :
  let res := onSquarePress r c v in
  (res.2 = None → position res.1 = position v)
  ∧ (∀ m cap, res.2 = Some (m, cap) →
       selected res.1 = None ∧ moves res.1 = []
       ∧ ∃ sel mv played,
           selected v = Some sel
           ∧ mv ∈ moves v ∧ Move.to mv = toSquare r c
           ∧ chess_move (position v) (Move.from mv) (Move.to mv) promo_q
             = Played played (position res.1)
           ∧ m = LastMove.mk (Move.from played) (Move.to played)
           ∧ cap = isCapture played).
Proof.
  unfold onSquarePress. cbn zeta.
  destruct (selected v) as [sel|] eqn:Hsel.
  - case_bool_decide as Hsq; [by split|].
    destruct (moveForTarget (moves v) (toSquare r c)) as [mv|] eqn:Hmv.
    + apply find_some in Hmv as [Hin Hto].
      apply bool_decide_eq_true in Hto. apply list_elem_of_In in Hin.
      destruct (chess_move _ _ _ _) as [played after| |] eqn:Hplayed; simpl.
      * split; [done|]. intros m cap [= <- <-].
        split_and!; [done|done|]. by exists sel, mv, played.
      * by split.
      * by split.
    + destruct (ownPiece (position v) (toSquare r c)); by split.
  - destruct (ownPiece (position v) (toSquare r c)); by split.
Qed.

Lemma X16_report_only_after_an_applied_move_witness :
  position (onSquarePress 3 3
              {| position := false; selected := Some "e2";
                 moves := [Move.mk "e2" "e4" "b"] |}).1 = false.
Proof.
  apply (X16_report_only_after_an_applied_move 3 3
           {| position := false; selected := Some "e2";
              moves := [Move.mk "e2" "e4" "b"] |}).
  reflexivity.
Defined.

(** X17. A move takes two presses: from a board with nothing selected,
    any sequence of presses reports at most half as many moves as there
    were presses. *)
Theorem X17_a_move_takes_two_presses
    {P : Type} `{Rules P} (presses : list (nat * nat)) (pos : P) :
  2 * length (pressAll presses {| position := pos; selected := None; moves := [] |}).2
  ≤ length presses.
Proof.
  assert (∀ v0 : BoardView P,
            2 * length (pressAll presses v0).2
            + (match selected (pressAll presses v0).1 with Some _ => 1 | None => 0 end)
            ≤ (match selected v0 with Some _ => 1 | None => 0 end) + length presses) as Hall.
  { induction presses as [|[r c] rest IH]; intros v0; [simpl; lia|].
    rewrite pressAll_cons. cbn [fst snd]. rewrite length_app.
    pose proof (onSquarePress_budget r c v0).
    pose proof (IH (onSquarePress r c v0).1). simpl. lia. }
  pose proof (Hall {| position := pos; selected := None; moves := [] |}) as Hb.
  simpl in Hb. lia.
Qed.

(** ** What the screen shows *)

(** X18. The status banner is consistent for every board model: its
    colour, icon and text colour follow from its text.  It reads
    [Solution found] exactly on a solved board; it is green, with the
    check mark and white text, exactly when it reads [Solution found] or
    [Correct move]; red with the cross exactly when it reads
    [Incorrect move]; and white exactly when it shows the opening prompt. *)
Theorem X18_status_banner_is_consistent (item : BoardModel) :
  let bn := statusBanner item in
  (text bn = "Solution found" ↔ solved item = true)
  ∧ (bgColor bn = "#2ecc71"
     ↔ text bn = "Solution found" ∨ text bn = "Correct move")
  ∧ (bgColor bn = "#e74c3c" ↔ text bn = "Incorrect move")
  ∧ (bgColor bn = "rgba(255, 255, 255, 1)"
     ↔ text bn = "Can You Solve This Puzzle?")
  ∧ (icon bn = Some "checkmark" ↔ bgColor bn = "#2ecc71")
  ∧ (icon bn = Some "close" ↔ bgColor bn = "#e74c3c")
  ∧ (whiteText bn = true ↔ bgColor bn = "#2ecc71").
Proof.
  unfold statusBanner.
  destruct (solved item), (lastMoveCorrect item) as [[|]|]; simpl;
    split_and!; (split; [intros Hx|intros Hx]);
    try done; try (by left); try (by right); by destruct Hx.
Qed.

Lemma reachable_board_facts initial evs i b :
  boards (run evs (useBoards initial)) !! i = Some b →
  ((solved b = true ↔ 0 < length (solution b) ∧ length (solution b) ≤ stepIndex b)
   ∧ (solved b = true → lastMoveCorrect b = Some true))
  ∧ ((lastMove b = None ∧ lastMoveCorrect b = None ∧ correctSquares b = [])
     ∨ (∃ m, lastMove b = Some m
             ∧ ((lastMoveCorrect b = Some true ∧ correctSquares b = [LastMove.to m])
                ∨ (lastMoveCorrect b = Some false ∧ correctSquares b = []))))
  ∧ (stepIndex b ≤ version b ∧ (version b = 0 ↔ lastMove b = None)).
Proof.
  revert initial evs i b. apply run_board_invariant.
  - intros p bid. simpl.
    split_and!; [split; [done|lia] | done | by left | lia | done].
  - intros b b' Hev (Hs & Hl & Hv). split_and!.
    + by apply (evolves_solved_inv b).
    + by apply (evolves_solved_inv b).
    + by apply (evolves_last_move_inv b).
    + by apply (evolves_version_inv b).
    + by apply (evolves_version_inv b).
Qed.

(** X19. In every feed reached from [useBoards], the banner of a board
    shows the opening prompt exactly as long as no move has been played on
    it (its version is still 0); after the first move the prompt never
    comes back. *)
Theorem X19_prompt_until_first_move
    (initial : nat) (evs : list Event) (i : nat) (b : BoardModel) :
  boards (run evs (useBoards initial)) !! i = Some b →
  (text (statusBanner b) = "Can You Solve This Puzzle?" ↔ version b = 0)
  ∧ (version b ≠ 0 →
     ∀ more, ∃ b', boards (run (evs ++ more) (useBoards initial)) !! i = Some b'
                   ∧ text (statusBanner b') ≠ "Can You Solve This Puzzle?").
Proof.
  assert (∀ evs0 i0 b0,
            boards (run evs0 (useBoards initial)) !! i0 = Some b0 →
            text (statusBanner b0) = "Can You Solve This Puzzle?" ↔ version b0 = 0)
    as Hprompt.
  { intros evs0 i0 b0 Hi0.
    destruct (reachable_board_facts initial evs0 i0 b0 Hi0)
      as ([_ Hcorrect] & Hlast & _ & Hversion).
    rewrite Hversion. unfold statusBanner. simpl.
    destruct (solved b0) eqn:Hs.
    - rewrite Hcorrect in Hlast by done.
      destruct Hlast as [(_ & ? & _)|(m & -> & _)]; [done|].
      split; intros; done.
    - destruct Hlast as [(-> & -> & _)|(m & -> & [[-> _]|[-> _]])]; simpl;
        split; intros; done. }
  intros Hi. split; [by apply (Hprompt evs i)|].
  intros Hplayed more.
  destruct (run_lookup_stable more _ i b Hi) as (b' & Hb' & _).
  rewrite <- run_app in Hb'. exists b'. split; [done|].
  rewrite (Hprompt _ i b' Hb').
  assert (∀ evs1 s j bj, boards s !! j = Some bj → version bj ≠ 0 →
            ∀ bj', boards (run evs1 s) !! j = Some bj' → version bj' ≠ 0) as Hmono.
  { induction evs1 as [|e evs1 IH]; intros s j bj Hj Hv bj' Hj'.
    - simpl in Hj'. congruence.
    - simpl in Hj'. destruct (step_lookup e s j bj Hj) as (b1 & Hb1 & Hev).
      apply (IH (step e s) j b1 Hb1); [|done].
      destruct Hev as [|last| |]; [done| |done|done].
      rewrite play_version. lia. }
  apply (Hmono more _ i b Hi Hplayed). by rewrite <- run_app.
Qed.

Lemma X19_prompt_until_first_move_witness :
  text (statusBanner (play d2d4 board0)) = "Can You Solve This Puzzle?"
  ↔ version (play d2d4 board0) = 0.
Proof.
  apply (X19_prompt_until_first_move 2 [EvMovePlayed "b-0" d2d4] 0).
  reflexivity.
Defined.

(** X20. The memoised board is rendered again exactly where it has to be.
    After [onMovePlayed], the comparison given to [React.memo] fails for
    every board the move was addressed to and holds for every other board
    (at an unchanged size); after a like or a star it holds for every
    board, so no board is rendered again. *)
Theorem X20_memo_rerenders_only_the_played_board
    {Size : Type} `{EqDecision Size}
    (prev : list BoardModel) (bid : string) (last : LastMove.t)
    (size : Size) (j : nat) (b : BoardModel) :
  prev !! j = Some b →
  (∃ b', (onMovePlayed bid last prev).1 !! j = Some b'
         ∧ MemoBoard_areEqual b size b' size = bool_decide (id b ≠ bid))
  ∧ (∃ b', toggleLike bid prev !! j = Some b'
           ∧ MemoBoard_areEqual b size b' size = true)
  ∧ (∃ b', toggleStar bid prev !! j = Some b'
           ∧ MemoBoard_areEqual b size b' size = true).
Proof.
  intros Hj. unfold MemoBoard_areEqual. split_and!.
  - rewrite onMovePlayed_lookup, Hj. simpl. eexists. split; [done|].
    destruct (decide (id b = bid)) as [Hid|Hid].
    + rewrite (bool_decide_eq_true_2 (id b = bid)) by done.
      rewrite play_id, play_version.
      rewrite (bool_decide_eq_false_2 (id b ≠ bid)) by naive_solver.
      rewrite (bool_decide_eq_false_2 (version b = version b + 1)) by lia.
      by rewrite andb_false_r.
    + rewrite (bool_decide_eq_false_2 (id b = bid)) by done.
      by rewrite !bool_decide_eq_true_2.
  - rewrite toggleLike_lookup, Hj. simpl. eexists. split; [done|].
    destruct (bool_decide (id b = bid)); simpl; by rewrite !bool_decide_eq_true_2.
  - rewrite toggleStar_lookup, Hj. simpl. eexists. split; [done|].
    destruct (bool_decide (id b = bid)); simpl; by rewrite !bool_decide_eq_true_2.
Qed.

Lemma X20_memo_rerenders_only_the_played_board_witness :
  ∃ b', (onMovePlayed "b-0" e2e4 feed2).1 !! 0 = Some b'
        ∧ MemoBoard_areEqual board0 390 b' 390 = bool_decide (id board0 ≠ "b-0").
Proof.
  apply (X20_memo_rerenders_only_the_played_board feed2 "b-0" e2e4 390 0 board0).
  reflexivity.
Defined.

(** ** The key-value store *)



(** ** The randomised feed *)

Lemma myapp_useBoards_ids draws j bj :
  MyApp.useBoards draws !! j = Some bj → MyApp.id bj = boardId j.
Proof.
  unfold MyApp.useBoards. rewrite list_lookup_imap.
  destruct (draws !! j); [|done]. by intros [= <-].
Qed.

Lemma myapp_step_ids e prev :
  (∀ j bj, prev !! j = Some bj → MyApp.id bj = boardId j) →
  ∀ j bj, MyApp.step e prev !! j = Some bj → MyApp.id bj = boardId j.
Proof.
  intros Hids j bj. destruct e as [drawn|bid|bid|bid|k|k]; simpl.
  - unfold MyApp.appendBoard. intros Hj.
    apply lookup_app_Some in Hj as [Hj|[Hge Hj]]; [by apply Hids|].
    destruct (j - length prev) as [|n] eqn:Hn; [|done].
    simpl in Hj. injection Hj as <-. simpl. f_equal. lia.
  - unfold MyApp.onBoardPositionChange. rewrite list_lookup_fmap.
    destruct (prev !! j) as [b|] eqn:Hb; [|done]. simpl. intros [= <-].
    rewrite <- (Hids j b Hb). by destruct (bool_decide _).
  - unfold MyApp.toggleLike. rewrite list_lookup_fmap.
    destruct (prev !! j) as [b|] eqn:Hb; [|done]. simpl. intros [= <-].
    rewrite <- (Hids j b Hb). by destruct (bool_decide _).
  - unfold MyApp.toggleStar. rewrite list_lookup_fmap.
    destruct (prev !! j) as [b|] eqn:Hb; [|done]. simpl. intros [= <-].
    rewrite <- (Hids j b Hb). by destruct (bool_decide _).
  - unfold MyApp.onTapLike. rewrite list_lookup_imap.
    destruct (prev !! j) as [b|] eqn:Hb; [|done]. simpl. intros [= <-].
    rewrite <- (Hids j b Hb). by destruct (bool_decide _).
  - unfold MyApp.onTapStar. rewrite list_lookup_imap.
    destruct (prev !! j) as [b|] eqn:Hb; [|done]. simpl. intros [= <-].
    rewrite <- (Hids j b Hb). by destruct (bool_decide _).
Qed.

Lemma myapp_run_ids evs : ∀ prev,
  (∀ j bj, prev !! j = Some bj → MyApp.id bj = boardId j) →
  ∀ j bj, MyApp.run evs prev !! j = Some bj → MyApp.id bj = boardId j.
Proof.
  induction evs as [|e evs IH]; intros prev Hids; [done|].
  simpl. apply IH. by apply myapp_step_ids.
Qed.

(** X22. In the randomised feed, whatever positions and tactics are drawn
    and whatever handlers run, the board at place [i] carries the id
    [b-i]; so no two boards of the feed share an id. *)
Theorem X22_randomised_feed_ids_follow_places
    (draws : list (Chess * string)) (evs : list MyApp.Event)
    (i j : nat) (bi bj : MyApp.BoardModel) :
  MyApp.run evs (MyApp.useBoards draws) !! i = Some bi →
  MyApp.run evs (MyApp.useBoards draws) !! j = Some bj →
  MyApp.id bi = boardId i ∧ (MyApp.id bj = MyApp.id bi → j = i).
Proof.
  intros Hi Hj.
  pose proof (myapp_run_ids evs _ (myapp_useBoards_ids draws)) as Hids.
  rewrite (Hids i bi Hi), (Hids j bj Hj).
  split; [done|]. apply boardId_inj.
Qed.

Lemma X22_randomised_feed_ids_follow_places_witness :
  MyApp.id (MyApp.createBoard ({| loaded := "start" |}, "Pin") (boardId 1)) = boardId 1
  ∧ (MyApp.id (MyApp.createBoard ({| loaded := "start" |}, "Fork") (boardId 0))
     = MyApp.id (MyApp.createBoard ({| loaded := "start" |}, "Pin") (boardId 1))
     → 0 = 1).
Proof.
  apply (X22_randomised_feed_ids_follow_places
           [({| loaded := "start" |}, "Fork")]
           [MyApp.EvAppend ({| loaded := "start" |}, "Pin")] 1 0);
    reflexivity.
Defined.

Lemma myapp_step_version e prev i b :
  prev !! i = Some b → MyApp.id b = boardId i →
  ∃ b', MyApp.step e prev !! i = Some b'
        ∧ MyApp.id b' = boardId i
        ∧ MyApp.version b'
          = MyApp.version b + MyApp.positionChanges (boardId i) [e].
Proof.
  intros Hi Hid. destruct e as [drawn|bid|bid|bid|k|k]; simpl.
  - exists b. unfold MyApp.appendBoard.
    split; [by apply lookup_app_l_Some|]. split; [done|lia].
  - unfold MyApp.onBoardPositionChange. rewrite list_lookup_fmap, Hi. simpl.
    eexists. split; [done|]. rewrite Hid.
    destruct (decide (boardId i = bid)) as [Heq|Hne].
    + rewrite (bool_decide_eq_true_2 (boardId i = bid)) by done.
      rewrite (bool_decide_eq_true_2 (bid = boardId i)) by done.
      simpl. split; [done|lia].
    + rewrite (bool_decide_eq_false_2 (boardId i = bid)) by done.
      rewrite (bool_decide_eq_false_2 (bid = boardId i)) by done.
      split; [done|lia].
  - unfold MyApp.toggleLike. rewrite list_lookup_fmap, Hi. simpl.
    eexists. split; [done|]. destruct (bool_decide _); simpl; split; [done|lia|done|lia].
  - unfold MyApp.toggleStar. rewrite list_lookup_fmap, Hi. simpl.
    eexists. split; [done|]. destruct (bool_decide _); simpl; split; [done|lia|done|lia].
  - unfold MyApp.onTapLike. rewrite list_lookup_imap, Hi. simpl.
    eexists. split; [done|]. destruct (bool_decide _); simpl; split; [done|lia|done|lia].
  - unfold MyApp.onTapStar. rewrite list_lookup_imap, Hi. simpl.
    eexists. split; [done|]. destruct (bool_decide _); simpl; split; [done|lia|done|lia].
Qed.

Lemma myapp_positionChanges_cons bid e evs :
  MyApp.positionChanges bid (e :: evs)
  = MyApp.positionChanges bid [e] + MyApp.positionChanges bid evs.
Proof. destruct e; simpl; lia. Qed.

Lemma myapp_run_version evs : ∀ prev i b,
  prev !! i = Some b → MyApp.id b = boardId i →
  ∃ b', MyApp.run evs prev !! i = Some b'
        ∧ MyApp.version b'
          = MyApp.version b + MyApp.positionChanges (boardId i) evs.
Proof.
  induction evs as [|e evs IH]; intros prev i b Hi Hid.
  - exists b. split; [done|]. simpl. lia.
  - destruct (myapp_step_version e prev i b Hi Hid) as (b1 & Hb1 & Hid1 & Hv1).
    destruct (IH _ i b1 Hb1 Hid1) as (b' & Hb' & Hv').
    exists b'. split; [done|].
    rewrite myapp_positionChanges_cons. lia.
Qed.

(** X23. In the randomised feed the version of a board counts the
    position changes reported for it: for a board of the initial feed,
    after any sequence of appends, position changes and reactions, its
    version is the number of position changes addressed to its id, and
    nothing else moves it. *)
Theorem X23_randomised_feed_version_counts_position_changes
    (draws : list (Chess * string)) (evs : list MyApp.Event) (i : nat) :
  i < length draws →
  ∃ b, MyApp.run evs (MyApp.useBoards draws) !! i = Some b
       ∧ MyApp.id b = boardId i
       ∧ MyApp.version b = MyApp.positionChanges (boardId i) evs.
Proof.
  intros Hi. destruct (lookup_lt_is_Some_2 draws i Hi) as [drawn Hd].
  assert (MyApp.useBoards draws !! i = Some (MyApp.createBoard drawn (boardId i)))
    as Hb0 by (unfold MyApp.useBoards; by rewrite list_lookup_imap, Hd).
  destruct (myapp_run_version evs _ i _ Hb0 eq_refl) as (b & Hb & Hv).
  exists b. split; [done|]. split; [|done].
  by apply (myapp_run_ids evs _ (myapp_useBoards_ids draws) i).
Qed.

Lemma X23_randomised_feed_version_counts_position_changes_witness :
  ∃ b, MyApp.run [MyApp.EvPositionChange "b-0"; MyApp.EvToggleLike "b-0";
                  MyApp.EvPositionChange "b-1"; MyApp.EvPositionChange "b-0"]
         (MyApp.useBoards [({| loaded := "start" |}, "Fork")]) !! 0 = Some b
       ∧ MyApp.id b = boardId 0
       ∧ MyApp.version b = 2.
Proof.
  apply (X23_randomised_feed_version_counts_position_changes
           [({| loaded := "start" |}, "Fork")]
           [MyApp.EvPositionChange "b-0"; MyApp.EvToggleLike "b-0";
            MyApp.EvPositionChange "b-1"; MyApp.EvPositionChange "b-0"] 0).
  simpl. lia.
Defined.

(** ** The last-move overlay *)

(** X24. In every feed reached from [useBoards], the last-move overlay
    of a square is never the neutral yellow: it is green or red.  The
    correctness icon is drawn exactly on the destination square of the
    last move, where the overlay is drawn too, and a check mark goes with
    green and a cross with red. *)
Theorem X24_overlay_never_neutral
    (initial : nat) (evs : list Event) (i : nat) (b : BoardModel) (sq : Square) :
  boards (run evs (useBoards initial)) !! i = Some b →
  lastMoveHighlight b sq ≠ Some "rgba(255,225,0,0.25)"
  ∧ (is_Some (correctnessIcon b sq)
     ↔ ∃ m, lastMove b = Some m ∧ LastMove.to m = sq)
  ∧ (correctnessIcon b sq = Some "checkmark-circle"
     → lastMoveHighlight b sq = Some "rgba(46,204,113,0.35)")
  ∧ (correctnessIcon b sq = Some "close-circle"
     → lastMoveHighlight b sq = Some "rgba(231,76,60,0.35)").
Proof.
  intros Hi.
  destruct (reachable_board_facts initial evs i b Hi) as (_ & Hlast & _).
  unfold lastMoveHighlight, correctnessIcon.
  destruct Hlast as [(Hl & Hc & _)|(m & Hl & [[Hc _]|[Hc _]])];
    rewrite Hl; try rewrite Hc.
  - split_and!; [done| |done|done].
    split; [by intros [? ?]|by intros (m & ? & _)].
  - destruct (decide (LastMove.to m = sq)) as [Hto|Hto].
    + rewrite (bool_decide_eq_true_2 _ Hto), orb_true_r.
      split_and!; [done| |done|done].
      split; [intros _; by exists m|by intros _].
    + rewrite (bool_decide_eq_false_2 _ Hto), orb_false_r.
      split_and!; [by destruct (bool_decide _)| |done|done].
      split; [by intros [? ?]|]. intros (m' & [= <-] & Hm'). done.
  - destruct (decide (LastMove.to m = sq)) as [Hto|Hto].
    + rewrite (bool_decide_eq_true_2 _ Hto), orb_true_r.
      split_and!; [done| |done|done].
      split; [intros _; by exists m|by intros _].
    + rewrite (bool_decide_eq_false_2 _ Hto), orb_false_r.
      split_and!; [by destruct (bool_decide _)| |done|done].
      split; [by intros [? ?]|]. intros (m' & [= <-] & Hm'). done.
Qed.

Lemma X24_overlay_never_neutral_witness :
  lastMoveHighlight (play d2d4 board0) "d4" ≠ Some "rgba(255,225,0,0.25)"
  ∧ (is_Some (correctnessIcon (play d2d4 board0) "d4")
     ↔ ∃ m, lastMove (play d2d4 board0) = Some m ∧ LastMove.to m = "d4").
Proof.
  destruct (X24_overlay_never_neutral 2 [EvMovePlayed "b-0" d2d4] 0
              (play d2d4 board0) "d4") as (Hnever & Hicon & _).
  - reflexivity.
  - by split.
Defined.
